(** * Constant propagation pass of the shader recompiler

    Shallow embedding of
    [src/shader_recompiler/ir_opt/constant_propagation_pass.cpp]
    (namespace [Shader::Optimization]) and the properties of its folding
    rules.

    The pass works on an SSA intermediate representation whose data
    structures ([IR::Value], [IR::Inst], [IR::Block], [IR::Program]) are
    declared in headers outside this translation unit.  Module [IR] below
    models that substrate; the folding rules that follow are transcribed
    function by function from the pass.

    Conventions of the embedding:
    - a [u32] or [u64] is a [Z] with the wrap-around written where the
      C++ arithmetic wraps; a shift of a 32-bit operand by 32 or more,
      which C++ leaves undefined, has no value: the rule that asks for it
      has no outcome ([Fault]);
    - the typed views [IR::U32] and [IR::U1] of a value are the value
      itself: operands are assumed to have the type their opcode
      declares;
    - pointers to instructions are handles into the arena, so writes
      through one handle are seen through every other. *)

From Stdlib Require Import ZArith Bool Lia.
From stdpp Require Import base tactics decidable option list numbers.

Local Open Scope Z_scope.

(** ** Outcomes

    A rule either finishes, throws, or has no defined behaviour: it
    hits a broken substrate contract (a dangling instruction handle, an
    argument index past the arity, a constant read at the wrong type, an
    identity chain that never ends) or an operation that C++ leaves
    undefined (a shift by the width of its operand). *)

(** Modelled from the spec: the fatal internal-logic failure of
    [shader_recompiler/exception.h]; its message is not kept. *)
Inductive Exception : Type :=
| LogicError.

Inductive result (A : Type) : Type :=
| Ok (a : A)
| Throw (e : Exception)
| Fault.

Arguments Ok {A} a.
Arguments Throw {A} e.
Arguments Fault {A}.

Definition rbind {A B} (r : result A) (k : A -> result B) : result B :=
  match r with
  | Ok a => k a
  | Throw e => Throw e
  | Fault => Fault
  end.

Notation "'let?' x := e 'in' k" := (rbind e (fun x => k))
  (at level 10, x name, e at level 100, k at level 200, only parsing).

Definition of_option {A} (o : option A) : result A :=
  match o with Some a => Ok a | None => Fault end.

(** ** Fixed-width integers *)

Definition wrap32 (n : Z) : Z := n mod 2 ^ 32.
Definition wrap64 (n : Z) : Z := n mod 2 ^ 64.

(** [static_cast<s32>] of a 32-bit pattern. *)
Definition to_s32 (n : Z) : Z :=
  let m := wrap32 n in if m <? 2 ^ 31 then m else m - 2 ^ 32.

(** The amount of a shift of a 32-bit operand.  C++ defines the shift
    only for amounts below the width of the operand; the amounts the pass
    computes are unsigned. *)
Definition shift_amount (n : Z) : result Z :=
  if n <? 32 then Ok n else Fault.

Module IR.

(** The IR substrate ([IR::Value], [IR::Inst], [IR::Block],
    [IR::Program] and their member functions) is declared in headers that
    are not part of this translation unit; the pass only reads and mutates
    it.  Everything in this module is modelled from the specification's
    data model and interface list. *)

(** Modelled from the spec: instruction and block handles.  Instructions
    are stable handles into an arena and are never removed. *)
Definition InstId := nat.
(** Modelled from the spec: a block is named by its position in the
    program's list of blocks. *)
Definition BlockId := nat.

(** Modelled from the spec: the opaque register, predicate and attribute
    identifiers, with the always-zero register [RZ] and the always-true
    predicate [PT]. *)
Inductive Reg : Type := R (n : nat) | RZ.
(** Modelled from the spec: predicate identifiers, [PT] always true. *)
Inductive Pred : Type := P (n : nat) | PT.
(** Modelled from the spec: shader input attribute identifiers. *)
Definition Attribute := nat.

(** Modelled from the spec: [IR::Opcode], the closed enumeration of
    operation kinds.  The opcodes the pass mentions are listed by name;
    [OtherOp] stands for the rest of the enumeration. *)
Inductive Opcode : Type :=
| Phi | Identity | Void
| BranchConditional
| GetRegister | GetPred | GetCbufU32 | GetCbufF32 | GetAttribute
| GetZeroFromOp | GetSignFromOp | GetCarryFromOp | GetOverflowFromOp
| CompositeConstructF16x2 | CompositeConstructF16x3 | CompositeConstructF16x4
| CompositeExtractF16x2 | CompositeExtractF16x3 | CompositeExtractF16x4
| CompositeInsertF16x2 | CompositeInsertF16x3 | CompositeInsertF16x4
| CompositeConstructF32x2 | CompositeConstructF32x3 | CompositeConstructF32x4
| CompositeExtractF32x2 | CompositeExtractF32x3 | CompositeExtractF32x4
| CompositeInsertF32x2 | CompositeInsertF32x3 | CompositeInsertF32x4
| SelectU1 | SelectU8 | SelectU16 | SelectU32 | SelectU64
| SelectF16 | SelectF32 | SelectF64
| BitCastU32F32 | BitCastF32U32 | PackHalf2x16 | UnpackHalf2x16
| FPMul32 | FPRecip32
| IAdd32 | IAdd64 | ISub32 | IMul32 | ShiftLeftLogical32
| BitFieldUExtract | BitFieldSExtract
| SLessThan | ULessThan | IEqual | SLessThanEqual | ULessThanEqual
| SGreaterThan | UGreaterThan | INotEqual | SGreaterThanEqual
| UGreaterThanEqual
| LogicalOr | LogicalAnd | LogicalNot
| OtherOp (n : nat).

(** Modelled from the spec: [IR::Value], either a reference to the
    instruction producing it ([Opaque]) or an immediate tagged by its
    primitive type.  Integers are kept as [Z] and floats as their bit
    pattern. *)
Inductive Value : Type :=
| Opaque (inst : InstId)
| ImmLabel (block : BlockId)
| ImmReg (r : Reg)
| ImmPred (p : Pred)
| ImmAttribute (a : Attribute)
| ImmU1 (b : bool)
| ImmU8 (n : Z)
| ImmU16 (n : Z)
| ImmU32 (n : Z)
| ImmU64 (n : Z)
| ImmF16 (bits : Z)
| ImmF32 (bits : Z)
| ImmF64 (bits : Z).

#[global] Instance Reg_eq_dec : EqDecision Reg.
Proof. solve_decision. Defined.
#[global] Instance Pred_eq_dec : EqDecision Pred.
Proof. solve_decision. Defined.
#[global] Instance Opcode_eq_dec : EqDecision Opcode.
Proof. solve_decision. Defined.
(** Modelled from the spec: [Value::operator==], same tag and same
    payload; two references are equal when they name the same
    instruction. *)
#[global] Instance Value_eq_dec : EqDecision Value.
Proof. solve_decision. Defined.

(** Modelled from the spec: [IR::FpControl], the flags of a
    floating-point instruction, with its contraction control. *)
Record FpControl : Type := MkFpControl {
  no_contraction : bool;
  rounding : nat;
  fmz_mode : nat
}.

(** Modelled from the spec: [IR::Inst], an opcode, the ordered arguments
    (arity fixed per opcode), the flags, and the associated
    pseudo-operation when there is one. *)
Record Inst : Type := MkInst {
  inst_opcode : Opcode;
  inst_args : list Value;
  inst_flags : FpControl;
  inst_pseudo : option InstId
}.

Abbreviation Block := (list InstId).

(** Modelled from the spec: [IR::Program], the arena of instructions and
    the blocks in post order, each an ordered sequence of instructions. *)
Record Program : Type := MkProgram {
  arena : list Inst;
  post_order_blocks : list Block
}.

(** Modelled from the spec: the tag test "producer reference". *)
Definition is_opaque (v : Value) : bool :=
  match v with Opaque _ => true | _ => false end.

Section Queries.
Variable h : list Inst.

(** Modelled from the spec: [Value::Resolve] follows trivial identity
    indirections to the underlying value.  The walk is bounded by the
    number of instructions; a chain of identities that never ends is a
    fault. *)
Fixpoint Resolve_fuel (n : nat) (v : Value) : result Value :=
  match v with
  | Opaque i =>
      match h !! i with
      | None => Fault
      | Some ins =>
          if decide (inst_opcode ins = Identity) then
            match n with
            | O => Fault
            | S n' =>
                match inst_args ins !! 0%nat with
                | Some a => Resolve_fuel n' a
                | None => Fault
                end
            end
          else Ok v
      end
  | _ => Ok v
  end.

(** Modelled from the spec: [Value::Resolve] with the bound of the
    arena's size. *)
Definition Resolve (v : Value) : result Value :=
  Resolve_fuel (length h) v.

(** Modelled from the spec: [Value::IsImmediate], immediate versus
    producer reference, seen through identity indirections. *)
Definition IsImmediate (v : Value) : result bool :=
  let? r := Resolve v in Ok (negb (is_opaque r)).

(** Modelled from the spec: [Value::InstRecursive], the producing
    instruction of a non-immediate value. *)
Definition InstRecursive (v : Value) : result InstId :=
  let? r := Resolve v in
  match r with Opaque i => Ok i | _ => Fault end.

(** Modelled from the spec: [Value::U1] decodes a boolean immediate;
    reading an immediate at another type than its own is a fault. *)
Definition U1 (v : Value) : result bool :=
  let? r := Resolve v in
  match r with ImmU1 b => Ok b | _ => Fault end.

(** Modelled from the spec: [Value::U32]; the integer read back is
    wrapped to 32 bits. *)
Definition U32 (v : Value) : result Z :=
  let? r := Resolve v in
  match r with ImmU32 n => Ok (wrap32 n) | _ => Fault end.

(** Modelled from the spec: [Value::U64]. *)
Definition U64 (v : Value) : result Z :=
  let? r := Resolve v in
  match r with ImmU64 n => Ok (wrap64 n) | _ => Fault end.

(** Modelled from the spec: [Value::F32], as the bit pattern. *)
Definition F32 (v : Value) : result Z :=
  let? r := Resolve v in
  match r with ImmF32 n => Ok (wrap32 n) | _ => Fault end.

(** Modelled from the spec: [Value::Reg]. *)
Definition RegOf (v : Value) : result Reg :=
  let? r := Resolve v in
  match r with ImmReg x => Ok x | _ => Fault end.

(** Modelled from the spec: [Value::Pred]. *)
Definition PredOf (v : Value) : result Pred :=
  let? r := Resolve v in
  match r with ImmPred x => Ok x | _ => Fault end.

(** Modelled from the spec: [Value::Attribute]. *)
Definition AttributeOf (v : Value) : result Attribute :=
  let? r := Resolve v in
  match r with ImmAttribute x => Ok x | _ => Fault end.

(** Modelled from the spec: [Inst::AreAllArgsImmediates]. *)
Fixpoint all_immediate (vs : list Value) : result bool :=
  match vs with
  | [] => Ok true
  | v :: vs' =>
      let? b := IsImmediate v in
      if b then all_immediate vs' else Ok false
  end.
End Queries.

(** Modelled from the spec: [Inst::ReplaceUsesWith] rewires every use of
    the instruction's result to the replacement; the instruction itself
    is not removed.  On one argument slot: *)
Definition rewire_value (i : InstId) (v a : Value) : Value :=
  if decide (a = Opaque i) then v else a.

(** Modelled from the spec: [Inst::ReplaceUsesWith] on the argument slots
    of one consumer. *)
Definition rewire_inst (i : InstId) (v : Value) (ins : Inst) : Inst :=
  MkInst (inst_opcode ins) (rewire_value i v <$> inst_args ins)
         (inst_flags ins) (inst_pseudo ins).

(** Modelled from the spec: [Inst::ReplaceUsesWith] on the whole program,
    every consumer rewired. *)
Definition replace_uses (i : InstId) (v : Value) (p : Program) : Program :=
  MkProgram (rewire_inst i v <$> arena p) (post_order_blocks p).

(** Modelled from the spec: [Inst::SetArg] on one arena cell. *)
Definition set_arg (n : nat) (v : Value) (ins : Inst) : Inst :=
  MkInst (inst_opcode ins) (<[n := v]> (inst_args ins))
         (inst_flags ins) (inst_pseudo ins).

(** Modelled from the spec: [Inst::ReplaceOpcode] on one arena cell. *)
Definition set_opcode (o : Opcode) (ins : Inst) : Inst :=
  MkInst o (inst_args ins) (inst_flags ins) (inst_pseudo ins).

(** Modelled from the spec: the emission interface positioned at a point
    of a block.  A new instruction is allocated at the end of the arena
    and linked into the block right before the insertion point. *)
Fixpoint insert_before (at_ new : InstId) (l : Block) : option Block :=
  match l with
  | [] => None
  | x :: l' =>
      if decide (x = at_) then Some (new :: x :: l')
      else cons x <$> insert_before at_ new l'
  end.

(** Modelled from the spec: the flags of a freshly emitted instruction. *)
Definition no_flags : FpControl := MkFpControl false 0 0.

(** Modelled from the spec: emitting [o (vs)] before [at_] in block [b];
    the insertion point must be in the block. *)
Definition prepend_new_inst (b : BlockId) (at_ : InstId) (o : Opcode)
    (vs : list Value) (p : Program) : result (InstId * Program) :=
  let new := length (arena p) in
  match post_order_blocks p !! b with
  | None => Fault
  | Some blk =>
      match insert_before at_ new blk with
      | None => Fault
      | Some blk' =>
          Ok (new, MkProgram (arena p ++ [MkInst o vs no_flags None])
                             (<[b := blk']> (post_order_blocks p)))
      end
  end.

End IR.

Import IR.

(** ** The rewriting monad

    Every rule reads and mutates the program in place; a rule is a state
    transformer that may throw. *)

Definition M (A : Type) : Type := Program -> result (A * Program).

Definition ret {A} (a : A) : M A := fun p => Ok (a, p).

Definition bind {A B} (m : M A) (k : A -> M B) : M B :=
  fun p =>
    match m p with
    | Ok (a, p') => k a p'
    | Throw e => Throw e
    | Fault => Fault
    end.

Notation "'do' x <- e ; k" := (bind e (fun x => k))
  (at level 10, x name, e at level 100, k at level 200, only parsing).
Notation "e ;; k" := (bind e (fun _ => k))
  (at level 100, k at level 200, right associativity, only parsing).

(** A query of the current arena. *)
Definition rd {A} (f : list Inst -> result A) : M A :=
  fun p => match f (arena p) with
           | Ok a => Ok (a, p)
           | Throw e => Throw e
           | Fault => Fault
           end.

(** The member functions of [IR::Inst] the pass calls, as actions on the
    program. *)

(** Modelled from the spec: dereferencing an instruction handle. *)
Definition GetInst (inst : InstId) : M Inst :=
  rd (fun h => of_option (h !! inst)).

(** Modelled from the spec: [Inst::GetOpcode]. *)
Definition GetOpcode (inst : InstId) : M Opcode :=
  do ins <- GetInst inst; ret (inst_opcode ins).

(** Modelled from the spec: [Inst::Arg], the argument at an index below
    the arity. *)
Definition Arg (inst : InstId) (n : nat) : M Value :=
  do ins <- GetInst inst;
  rd (fun _ => of_option (inst_args ins !! n)).

(** Modelled from the spec: [Inst::Flags<IR::FpControl>]. *)
Definition Flags (inst : InstId) : M FpControl :=
  do ins <- GetInst inst; ret (inst_flags ins).

(** Modelled from the spec: [Inst::HasAssociatedPseudoOperation]. *)
Definition HasAssociatedPseudoOperation (inst : InstId) : M bool :=
  do ins <- GetInst inst;
  ret (match inst_pseudo ins with Some _ => true | None => false end).

(** Modelled from the spec: [Inst::AreAllArgsImmediates] on a handle. *)
Definition AreAllArgsImmediates (inst : InstId) : M bool :=
  do ins <- GetInst inst;
  rd (fun h => all_immediate h (inst_args ins)).

(** Modelled from the spec: writing one arena cell in place. *)
Definition update_inst (inst : InstId) (f : Inst -> Inst) : M unit :=
  fun p =>
    match arena p !! inst with
    | Some ins =>
        Ok (tt, MkProgram (<[inst := f ins]> (arena p)) (post_order_blocks p))
    | None => Fault
    end.

(** Modelled from the spec: [Inst::SetArg], the index below the arity. *)
Definition SetArg (inst : InstId) (n : nat) (v : Value) : M unit :=
  do ins <- GetInst inst;
  if decide (n < length (inst_args ins))%nat
  then update_inst inst (set_arg n v)
  else rd (fun _ => Fault).

(** Modelled from the spec: [Inst::ReplaceOpcode]. *)
Definition ReplaceOpcode (inst : InstId) (o : Opcode) : M unit :=
  update_inst inst (set_opcode o).

(** Modelled from the spec: [Inst::ReplaceUsesWith]. *)
Definition ReplaceUsesWith (inst : InstId) (v : Value) : M unit :=
  fun p => Ok (tt, replace_uses inst v p).

(** Modelled from the spec:
    [IREmitter{block, s_iterator_to(inst)}.IMul(a, b)] emits an [IMul32]
    before [inst] and returns the value naming it. *)
Definition IMul (block : BlockId) (inst : InstId) (a b : Value) : M Value :=
  fun p =>
    match prepend_new_inst block inst IMul32 [a; b] p with
    | Ok (new, p') => Ok (Opaque new, p')
    | Throw e => Throw e
    | Fault => Fault
    end.

(** ** Typed operand decoding, [Arg<T>] *)

Inductive ImmTy : Type := T_bool | T_u32 | T_s32 | T_f32 | T_u64.

Definition sem (T : ImmTy) : Type :=
  match T with T_bool => bool | _ => Z end.

Definition ArgT (T : ImmTy) (h : list Inst) (value : Value) : result (sem T) :=
  match T with
  | T_bool => U1 h value
  | T_u32 => U32 h value
  | T_s32 => let? n := U32 h value in Ok (to_s32 n)
  | T_f32 => F32 h value
  | T_u64 => U64 h value
  end.

(** Modelled from the spec: [IR::Value{x}] wraps a native [x] into an
    immediate; a signed word is stored as its 32-bit pattern. *)
Definition ValueOf (T : ImmTy) : sem T -> Value :=
  match T with
  | T_bool => ImmU1
  | T_u32 => ImmU32
  | T_s32 => fun n => ImmU32 (wrap32 n)
  | T_f32 => ImmF32
  | T_u64 => ImmU64
  end.

(** ** The folding rules *)

Definition FoldCommutative (T : ImmTy) (imm_fn : sem T -> sem T -> sem T)
    (inst : InstId) : M bool :=
  do lhs <- Arg inst 0;
  do rhs <- Arg inst 1;
  do is_lhs_immediate <- rd (fun h => IsImmediate h lhs);
  do is_rhs_immediate <- rd (fun h => IsImmediate h rhs);
  if is_lhs_immediate && is_rhs_immediate then
    do a <- rd (fun h => ArgT T h lhs);
    do b <- rd (fun h => ArgT T h rhs);
    ReplaceUsesWith inst (ValueOf T (imm_fn a b));;
    ret false
  else
    (if is_lhs_immediate && negb is_rhs_immediate then
       do rhs_inst <- rd (fun h => InstRecursive h rhs);
       do rhs_op <- GetOpcode rhs_inst;
       do op <- GetOpcode inst;
       do mergeable <-
         (if decide (rhs_op = op)
          then do c <- Arg rhs_inst 1; rd (fun h => IsImmediate h c)
          else ret false);
       if mergeable then
         do a <- rd (fun h => ArgT T h lhs);
         do c <- Arg rhs_inst 1;
         do b <- rd (fun h => ArgT T h c);
         do x <- Arg rhs_inst 0;
         SetArg inst 0 x;;
         SetArg inst 1 (ValueOf T (imm_fn a b))
       else
         SetArg inst 0 rhs;;
         SetArg inst 1 lhs
     else ret tt);;
    (if negb is_lhs_immediate && is_rhs_immediate then
       do lhs_inst <- rd (fun h => InstRecursive h lhs);
       do lhs_op <- GetOpcode lhs_inst;
       do op <- GetOpcode inst;
       do mergeable <-
         (if decide (lhs_op = op)
          then do c <- Arg lhs_inst 1; rd (fun h => IsImmediate h c)
          else ret false);
       if mergeable then
         do a <- rd (fun h => ArgT T h rhs);
         do c <- Arg lhs_inst 1;
         do b <- rd (fun h => ArgT T h c);
         do x <- Arg lhs_inst 0;
         SetArg inst 0 x;;
         SetArg inst 1 (ValueOf T (imm_fn a b))
       else ret tt
     else ret tt);;
    ret true.

(** [EvalImmediates] for the two- and three-parameter closures the
    dispatcher passes; the closure may throw. *)
Definition EvalImmediates2 (TA TB : ImmTy)
    (func : sem TA -> sem TB -> result Value) (inst : InstId) : M Value :=
  do a0 <- Arg inst 0;
  do a1 <- Arg inst 1;
  do x <- rd (fun h => ArgT TA h a0);
  do y <- rd (fun h => ArgT TB h a1);
  rd (fun _ => func x y).

Definition EvalImmediates3 (TA TB TC : ImmTy)
    (func : sem TA -> sem TB -> sem TC -> result Value) (inst : InstId)
    : M Value :=
  do a0 <- Arg inst 0;
  do a1 <- Arg inst 1;
  do a2 <- Arg inst 2;
  do x <- rd (fun h => ArgT TA h a0);
  do y <- rd (fun h => ArgT TB h a1);
  do z <- rd (fun h => ArgT TC h a2);
  rd (fun _ => func x y z).

Definition FoldWhenAllImmediates (eval : InstId -> M Value) (inst : InstId)
    : M bool :=
  do all <- AreAllArgsImmediates inst;
  do skip <- (if negb all then ret true
              else HasAssociatedPseudoOperation inst);
  if skip then ret false
  else
    do v <- eval inst;
    ReplaceUsesWith inst v;;
    ret true.

Definition FoldGetRegister (inst : InstId) : M unit :=
  do a <- Arg inst 0;
  do r <- rd (fun h => RegOf h a);
  if decide (r = RZ) then ReplaceUsesWith inst (ImmU32 0) else ret tt.

Definition FoldGetPred (inst : InstId) : M unit :=
  do a <- Arg inst 0;
  do r <- rd (fun h => PredOf h a);
  if decide (r = PT) then ReplaceUsesWith inst (ImmU1 true) else ret tt.

(** Replaces the pattern generated by two XMAD multiplications. *)
Definition FoldXmadMultiply (block : BlockId) (inst : InstId) : M bool :=
  do lhs_arg <- Arg inst 0;
  do rhs_arg <- Arg inst 1;
  do lhs_imm <- rd (fun h => IsImmediate h lhs_arg);
  do any_imm <- (if lhs_imm then ret true
                 else rd (fun h => IsImmediate h rhs_arg));
  if any_imm then ret false else
  do lhs_shl <- rd (fun h => InstRecursive h lhs_arg);
  do shl_op <- GetOpcode lhs_shl;
  do not_shl16 <-
    (if decide (shl_op = ShiftLeftLogical32)
     then do amount <- Arg lhs_shl 1;
          ret (negb (bool_decide (amount = ImmU32 16)))
     else ret true);
  if not_shl16 then ret false else
  do shl_src <- Arg lhs_shl 0;
  do shl_src_imm <- rd (fun h => IsImmediate h shl_src);
  if shl_src_imm then ret false else
  do lhs_mul <- rd (fun h => InstRecursive h shl_src);
  do rhs_mul <- rd (fun h => InstRecursive h rhs_arg);
  do lhs_mul_op <- GetOpcode lhs_mul;
  do rhs_mul_op <- GetOpcode rhs_mul;
  if negb (bool_decide (lhs_mul_op = IMul32))
     || negb (bool_decide (rhs_mul_op = IMul32)) then ret false else
  do lhs_b <- Arg lhs_mul 1;
  do rhs_b <- Arg rhs_mul 1;
  do lhs_b_res <- rd (fun h => Resolve h lhs_b);
  do rhs_b_res <- rd (fun h => Resolve h rhs_b);
  if negb (bool_decide (lhs_b_res = rhs_b_res)) then ret false else
  let factor_b := lhs_b in
  do lhs_a <- Arg lhs_mul 0;
  do rhs_a <- Arg rhs_mul 0;
  do lhs_a_imm <- rd (fun h => IsImmediate h lhs_a);
  do any_a_imm <- (if lhs_a_imm then ret true
                   else rd (fun h => IsImmediate h rhs_a));
  if any_a_imm then ret false else
  do lhs_bfe <- rd (fun h => InstRecursive h lhs_a);
  do rhs_bfe <- rd (fun h => InstRecursive h rhs_a);
  do lhs_bfe_op <- GetOpcode lhs_bfe;
  if negb (bool_decide (lhs_bfe_op = BitFieldUExtract)) then ret false else
  do rhs_bfe_op <- GetOpcode rhs_bfe;
  if negb (bool_decide (rhs_bfe_op = BitFieldUExtract)) then ret false else
  do lhs_off <- Arg lhs_bfe 1;
  do lhs_bad <-
    (if bool_decide (lhs_off = ImmU32 16)
     then do w <- Arg lhs_bfe 2; ret (negb (bool_decide (w = ImmU32 16)))
     else ret true);
  if lhs_bad then ret false else
  do rhs_off <- Arg rhs_bfe 1;
  do rhs_bad <-
    (if bool_decide (rhs_off = ImmU32 0)
     then do w <- Arg rhs_bfe 2; ret (negb (bool_decide (w = ImmU32 16)))
     else ret true);
  if rhs_bad then ret false else
  do lhs_base <- Arg lhs_bfe 0;
  do rhs_base <- Arg rhs_bfe 0;
  do lhs_base_res <- rd (fun h => Resolve h lhs_base);
  do rhs_base_res <- rd (fun h => Resolve h rhs_base);
  if negb (bool_decide (lhs_base_res = rhs_base_res)) then ret false else
  let factor_a := lhs_base in
  do product <- IMul block inst factor_a factor_b;
  ReplaceUsesWith inst product;;
  ret true.

(** [FoldAdd<T>], instantiated at [u32] and [u64]; the XMAD idiom is
    only tried for [u32]. *)
Inductive IntTy : Type := I_u32 | I_u64.

Definition imm_ty (W : IntTy) : ImmTy :=
  match W with I_u32 => T_u32 | I_u64 => T_u64 end.

Definition add_fn (W : IntTy) : sem (imm_ty W) -> sem (imm_ty W) -> sem (imm_ty W) :=
  match W with
  | I_u32 => fun a b => wrap32 (a + b)
  | I_u64 => fun a b => wrap64 (a + b)
  end.

Definition is_zero (W : IntTy) : sem (imm_ty W) -> bool :=
  match W with
  | I_u32 => fun a => a =? 0
  | I_u64 => fun a => a =? 0
  end.

Definition FoldAdd (W : IntTy) (block : BlockId) (inst : InstId) : M unit :=
  do pseudo <- HasAssociatedPseudoOperation inst;
  if pseudo then ret tt else
  do go_on <- FoldCommutative (imm_ty W) (add_fn W) inst;
  if negb go_on then ret tt else
  do rhs <- Arg inst 1;
  do rhs_imm <- rd (fun h => IsImmediate h rhs);
  do rhs_zero <- (if rhs_imm
                  then do c <- rd (fun h => ArgT (imm_ty W) h rhs);
                       ret (is_zero W c)
                  else ret false);
  if rhs_zero then
    do lhs <- Arg inst 0;
    ReplaceUsesWith inst lhs
  else
    match W with
    | I_u32 => do _ <- FoldXmadMultiply block inst; ret tt
    | I_u64 => ret tt
    end.

Definition equal_cbuf (a b : InstId) : M bool :=
  do a_op <- GetOpcode a;
  if negb (bool_decide (a_op = GetCbufU32)) then ret false else
  do b_op <- GetOpcode b;
  if negb (bool_decide (b_op = GetCbufU32)) then ret false else
  do a0 <- Arg a 0;
  do b0 <- Arg b 0;
  if negb (bool_decide (a0 = b0)) then ret false else
  do a1 <- Arg a 1;
  do b1 <- Arg b 1;
  ret (bool_decide (a1 = b1)).

Definition FoldISub32 (inst : InstId) : M unit :=
  do folded <- FoldWhenAllImmediates
                 (EvalImmediates2 T_u32 T_u32
                    (fun a b => Ok (ImmU32 (wrap32 (a - b))))) inst;
  if folded then ret tt else
  do arg0 <- Arg inst 0;
  do imm0 <- rd (fun h => IsImmediate h arg0);
  do any_imm <- (if imm0 then ret true
                 else do arg1 <- Arg inst 1;
                      rd (fun h => IsImmediate h arg1));
  if any_imm then ret tt else
  (* ISub32 is generally used to subtract two constant buffers, compare
     and replace this with zero if they equal. *)
  do arg1 <- Arg inst 1;
  do op_a <- rd (fun h => InstRecursive h arg0);
  do op_b <- rd (fun h => InstRecursive h arg1);
  do same <- equal_cbuf op_a op_b;
  if same then ReplaceUsesWith inst (ImmU32 0) else
  (* It's also possible a value is being added to a cbuf and then
     subtracted. *)
  do b_op <- GetOpcode op_b;
  let '(op_a, op_b) :=
    if bool_decide (b_op = IAdd32) then (op_b, op_a) else (op_a, op_b) in
  do b_op <- GetOpcode op_b;
  if negb (bool_decide (b_op = GetCbufU32)) then ret tt else
  let inst_cbuf := op_b in
  do a_op <- GetOpcode op_a;
  if negb (bool_decide (a_op = IAdd32)) then ret tt else
  do add_op_a <- Arg op_a 0;
  do add_op_b <- Arg op_a 1;
  do b_imm <- rd (fun h => IsImmediate h add_op_b);
  let '(add_op_a, add_op_b) :=
    if b_imm then (add_op_b, add_op_a) else (add_op_a, add_op_b) in
  do b_imm <- rd (fun h => IsImmediate h add_op_b);
  if b_imm then ret tt else
  do add_cbuf <- rd (fun h => InstRecursive h add_op_b);
  do same <- equal_cbuf add_cbuf inst_cbuf;
  if same then ReplaceUsesWith inst add_op_a else ret tt.

Definition FoldSelect (inst : InstId) : M unit :=
  do cond <- Arg inst 0;
  do cond_imm <- rd (fun h => IsImmediate h cond);
  if cond_imm then
    do c <- rd (fun h => U1 h cond);
    do v <- Arg inst (if c then 1%nat else 2%nat);
    ReplaceUsesWith inst v
  else ret tt.

Definition FoldFPMul32 (inst : InstId) : M unit :=
  do control <- Flags inst;
  if no_contraction control then ret tt else
  (* Fold interpolation operations *)
  do lhs_value <- Arg inst 0;
  do rhs_value <- Arg inst 1;
  do lhs_imm <- rd (fun h => IsImmediate h lhs_value);
  do any_imm <- (if lhs_imm then ret true
                 else rd (fun h => IsImmediate h rhs_value));
  if any_imm then ret tt else
  do lhs_op <- rd (fun h => InstRecursive h lhs_value);
  do rhs_op <- rd (fun h => InstRecursive h rhs_value);
  do lhs_opcode <- GetOpcode lhs_op;
  do rhs_opcode <- GetOpcode rhs_op;
  if negb (bool_decide (lhs_opcode = FPMul32))
     || negb (bool_decide (rhs_opcode = FPRecip32)) then ret tt else
  do recip_source <- Arg rhs_op 0;
  do lhs_mul_arg <- Arg lhs_op 1;
  do lhs_mul_source <- rd (fun h => Resolve h lhs_mul_arg);
  do recip_imm <- rd (fun h => IsImmediate h recip_source);
  do any_imm <- (if recip_imm then ret true
                 else rd (fun h => IsImmediate h lhs_mul_source));
  if any_imm then ret tt else
  do attr_a <- rd (fun h => InstRecursive h recip_source);
  do attr_b <- rd (fun h => InstRecursive h lhs_mul_source);
  do a_opcode <- GetOpcode attr_a;
  do b_opcode <- GetOpcode attr_b;
  if negb (bool_decide (a_opcode = GetAttribute))
     || negb (bool_decide (b_opcode = GetAttribute)) then ret tt else
  do a_arg <- Arg attr_a 0;
  do b_arg <- Arg attr_b 0;
  do a_attr <- rd (fun h => AttributeOf h a_arg);
  do b_attr <- rd (fun h => AttributeOf h b_arg);
  if bool_decide (a_attr = b_attr) then
    do x <- Arg lhs_op 0;
    ReplaceUsesWith inst x
  else ret tt.

Definition FoldLogicalAnd (inst : InstId) : M unit :=
  do go_on <- FoldCommutative T_bool andb inst;
  if negb go_on then ret tt else
  do rhs <- Arg inst 1;
  do rhs_imm <- rd (fun h => IsImmediate h rhs);
  if rhs_imm then
    do c <- rd (fun h => U1 h rhs);
    if c then do lhs <- Arg inst 0; ReplaceUsesWith inst lhs
    else ReplaceUsesWith inst (ImmU1 false)
  else ret tt.

Definition FoldLogicalOr (inst : InstId) : M unit :=
  do go_on <- FoldCommutative T_bool orb inst;
  if negb go_on then ret tt else
  do rhs <- Arg inst 1;
  do rhs_imm <- rd (fun h => IsImmediate h rhs);
  if rhs_imm then
    do c <- rd (fun h => U1 h rhs);
    if c then ReplaceUsesWith inst (ImmU1 true)
    else do lhs <- Arg inst 0; ReplaceUsesWith inst lhs
  else ret tt.

Definition FoldLogicalNot (inst : InstId) : M unit :=
  do value <- Arg inst 0;
  do value_imm <- rd (fun h => IsImmediate h value);
  if value_imm then
    do c <- rd (fun h => U1 h value);
    ReplaceUsesWith inst (ImmU1 (negb c))
  else
    do arg <- rd (fun h => InstRecursive h value);
    do arg_op <- GetOpcode arg;
    if bool_decide (arg_op = LogicalNot) then
      do x <- Arg arg 0;
      ReplaceUsesWith inst x
    else ret tt.

(** [FoldBitCast<op, Dest, Source>]; [cast] is [Common::BitCast<Dest>],
    the identity on bit patterns. *)
Definition FoldBitCast (op : Opcode) (Dest Source : ImmTy)
    (cast : sem Source -> sem Dest) (inst : InstId) (reverse : Opcode)
    : M unit :=
  do value <- Arg inst 0;
  do value_imm <- rd (fun h => IsImmediate h value);
  if value_imm then
    do x <- rd (fun h => ArgT Source h value);
    ReplaceUsesWith inst (ValueOf Dest (cast x))
  else
    do arg_inst <- rd (fun h => InstRecursive h value);
    do arg_op <- GetOpcode arg_inst;
    if bool_decide (arg_op = reverse) then
      do x <- Arg arg_inst 0;
      ReplaceUsesWith inst x
    else if bool_decide (op = BitCastF32U32)
            && bool_decide (arg_op = GetCbufU32) then
      (* Replace the bitcast with a typed constant buffer read *)
      ReplaceOpcode inst GetCbufF32;;
      (do slot <- Arg arg_inst 0; SetArg inst 0 slot);;
      (do offset <- Arg arg_inst 1; SetArg inst 1 offset)
    else ret tt.

Definition FoldInverseFunc (inst : InstId) (reverse : Opcode) : M unit :=
  do value <- Arg inst 0;
  do value_imm <- rd (fun h => IsImmediate h value);
  if value_imm then ret tt else
  do arg_inst <- rd (fun h => InstRecursive h value);
  do arg_op <- GetOpcode arg_inst;
  if bool_decide (arg_op = reverse) then
    do x <- Arg arg_inst 0;
    ReplaceUsesWith inst x
  else ret tt.

Definition FoldBranchConditional (inst : InstId) : M unit :=
  do cond <- Arg inst 0;
  do cond_imm <- rd (fun h => IsImmediate h cond);
  if cond_imm then ret tt else
  do cond_inst <- rd (fun h => InstRecursive h cond);
  do cond_op <- GetOpcode cond_inst;
  if bool_decide (cond_op = LogicalNot) then
    do true_label <- Arg inst 1;
    do false_label <- Arg inst 2;
    (* Remove negation on the conditional and swap the branches *)
    (do inner <- Arg cond_inst 0; SetArg inst 0 inner);;
    SetArg inst 1 false_label;;
    SetArg inst 2 true_label
  else ret tt.

(** The recursion follows producer links, so it is bounded by the number
    of instructions in the arena; running out of that bound means the
    links form a cycle. *)
Fixpoint FoldCompositeExtractImpl (fuel : nat) (h : list Inst)
    (inst_value : Value) (insert construct : Opcode) (first_index : Z)
    : result (option Value) :=
  match fuel with
  | O => Fault
  | S fuel' =>
      let? inst := InstRecursive h inst_value in
      let? ins := of_option (h !! inst) in
      if bool_decide (inst_opcode ins = construct) then
        let? a := of_option (inst_args ins !! Z.to_nat first_index) in
        Ok (Some a)
      else if negb (bool_decide (inst_opcode ins = insert)) then Ok None
      else
        let? value_index := of_option (inst_args ins !! 2%nat) in
        let? index_imm := IsImmediate h value_index in
        if negb index_imm then Ok None else
        let? second_index := U32 h value_index in
        if negb (first_index =? second_index) then
          let? value_composite := of_option (inst_args ins !! 0%nat) in
          let? composite_imm := IsImmediate h value_composite in
          if composite_imm then Ok None
          else FoldCompositeExtractImpl fuel' h value_composite
                 insert construct first_index
        else
          let? inserted := of_option (inst_args ins !! 1%nat) in
          Ok (Some inserted)
  end.

Definition FoldCompositeExtract (inst : InstId) (construct insert : Opcode)
    : M unit :=
  do value_1 <- Arg inst 0;
  do value_2 <- Arg inst 1;
  do imm_1 <- rd (fun h => IsImmediate h value_1);
  if imm_1 then ret tt else
  do imm_2 <- rd (fun h => IsImmediate h value_2);
  if negb imm_2 then ret tt else
  do first_index <- rd (fun h => U32 h value_2);
  do result <- rd (fun h => FoldCompositeExtractImpl (length h) h value_1
                              insert construct first_index);
  match result with
  | None => ret tt
  | Some v => ReplaceUsesWith inst v
  end.

(** The closures handed to [FoldWhenAllImmediates] by the dispatcher. *)
Definition compare_fn (T : ImmTy) (rel : sem T -> sem T -> bool)
    : InstId -> M Value :=
  EvalImmediates2 T T (fun a b => Ok (ImmU1 (rel a b))).

(** [base >> shift] and [1U << count] are shifts of a [u32]: the guard
    lets [shift = 32] (with [count = 0]) and [count = 32] (with
    [shift = 0]) through, and there the shift is undefined. *)
Definition BitFieldUExtract_fn (base shift count : Z) : result Value :=
  if 32 <? shift + count then Throw LogicError
  else
    let? shift := shift_amount shift in
    let? count := shift_amount count in
    Ok (ImmU32 (Z.land (Z.shiftr base shift)
                       (wrap32 (wrap32 (Z.shiftl 1 count) - 1)))).

(** [base << left_shift] and the arithmetic [>> (32 - count)] are shifts
    of an [s32]: the left shift wraps, and the guard lets
    [left_shift = 32] (when [shift + count = 0]) and [32 - count = 32]
    (when [count = 0]) through, where the shift is undefined. *)
Definition BitFieldSExtract_fn (base shift count : Z) : result Value :=
  let back_shift := shift + count in
  if 32 <? back_shift then Throw LogicError
  else
    let? left_shift := shift_amount (32 - back_shift) in
    let? right_shift := shift_amount (32 - count) in
    Ok (ImmU32 (wrap32 (Z.shiftr (to_s32 (Z.shiftl base left_shift))
                                 right_shift))).

Definition ConstantPropagation (block : BlockId) (inst : InstId) : M unit :=
  do op <- GetOpcode inst;
  match op with
  | GetRegister => FoldGetRegister inst
  | GetPred => FoldGetPred inst
  | IAdd32 => FoldAdd I_u32 block inst
  | ISub32 => FoldISub32 inst
  | BitCastF32U32 =>
      FoldBitCast BitCastF32U32 T_f32 T_u32 (fun bits => bits) inst
        BitCastU32F32
  | BitCastU32F32 =>
      FoldBitCast BitCastU32F32 T_u32 T_f32 (fun bits => bits) inst
        BitCastF32U32
  | IAdd64 => FoldAdd I_u64 block inst
  | PackHalf2x16 => FoldInverseFunc inst UnpackHalf2x16
  | UnpackHalf2x16 => FoldInverseFunc inst PackHalf2x16
  | SelectU1 | SelectU8 | SelectU16 | SelectU32 | SelectU64
  | SelectF16 | SelectF32 | SelectF64 => FoldSelect inst
  | FPMul32 => FoldFPMul32 inst
  | LogicalAnd => FoldLogicalAnd inst
  | LogicalOr => FoldLogicalOr inst
  | LogicalNot => FoldLogicalNot inst
  | SLessThan =>
      do _ <- FoldWhenAllImmediates (compare_fn T_s32 Z.ltb) inst; ret tt
  | ULessThan =>
      do _ <- FoldWhenAllImmediates (compare_fn T_u32 Z.ltb) inst; ret tt
  | SLessThanEqual =>
      do _ <- FoldWhenAllImmediates (compare_fn T_s32 Z.leb) inst; ret tt
  | ULessThanEqual =>
      do _ <- FoldWhenAllImmediates (compare_fn T_u32 Z.leb) inst; ret tt
  | SGreaterThan =>
      do _ <- FoldWhenAllImmediates (compare_fn T_s32 Z.gtb) inst; ret tt
  | UGreaterThan =>
      do _ <- FoldWhenAllImmediates (compare_fn T_u32 Z.gtb) inst; ret tt
  | SGreaterThanEqual =>
      do _ <- FoldWhenAllImmediates (compare_fn T_s32 Z.geb) inst; ret tt
  | UGreaterThanEqual =>
      do _ <- FoldWhenAllImmediates (compare_fn T_u32 Z.geb) inst; ret tt
  | IEqual =>
      do _ <- FoldWhenAllImmediates (compare_fn T_u32 Z.eqb) inst; ret tt
  | INotEqual =>
      do _ <- FoldWhenAllImmediates
                (compare_fn T_u32 (fun a b => negb (a =? b))) inst;
      ret tt
  | BitFieldUExtract =>
      do _ <- FoldWhenAllImmediates
                (EvalImmediates3 T_u32 T_u32 T_u32 BitFieldUExtract_fn) inst;
      ret tt
  | BitFieldSExtract =>
      do _ <- FoldWhenAllImmediates
                (EvalImmediates3 T_s32 T_u32 T_u32 BitFieldSExtract_fn) inst;
      ret tt
  | BranchConditional => FoldBranchConditional inst
  | CompositeExtractF32x2 =>
      FoldCompositeExtract inst CompositeConstructF32x2 CompositeInsertF32x2
  | CompositeExtractF32x3 =>
      FoldCompositeExtract inst CompositeConstructF32x3 CompositeInsertF32x3
  | CompositeExtractF32x4 =>
      FoldCompositeExtract inst CompositeConstructF32x4 CompositeInsertF32x4
  | CompositeExtractF16x2 =>
      FoldCompositeExtract inst CompositeConstructF16x2 CompositeInsertF16x2
  | CompositeExtractF16x3 =>
      FoldCompositeExtract inst CompositeConstructF16x3 CompositeInsertF16x3
  | CompositeExtractF16x4 =>
      FoldCompositeExtract inst CompositeConstructF16x4 CompositeInsertF16x4
  | _ => ret tt
  end.

(** Blocks in reverse post order, instructions in program order.  An
    instruction emitted by a rule is linked before the one being visited,
    so the walk over a block follows the instructions it held on entry. *)
Fixpoint for_each {A} (f : A -> M unit) (l : list A) : M unit :=
  match l with
  | [] => ret tt
  | x :: l' => f x;; for_each f l'
  end.

Definition ConstantPropagationPass : M unit :=
  fun program =>
    for_each
      (fun block =>
         fun p =>
           match post_order_blocks p !! block with
           | Some insts => for_each (ConstantPropagation block) insts p
           | None => Fault
           end)
      (rev (seq 0 (length (post_order_blocks program)))) program.

(** * Vocabulary of the properties *)

(** The value [v] is produced by an instruction [opc (args)]. *)
Definition produced_by (h : list Inst) (v : Value) (opc : Opcode)
    (args : list Value) : Prop :=
  exists (i : InstId) (fl : FpControl) (ps : option InstId),
    InstRecursive h v = Ok i /\ h !! i = Some (MkInst opc args fl ps).

(** The program [p] with the arena cell of [inst] overwritten. *)
Definition store_inst (inst : InstId) (ins : Inst) (p : Program) : Program :=
  MkProgram (<[inst := ins]> (arena p)) (post_order_blocks p).

(** The instruction [inst] sits in [block] between [pre] and [post]. *)
Definition placed (p : Program) (block : BlockId) (inst : InstId)
    (pre post : list InstId) : Prop :=
  post_order_blocks p !! block = Some (pre ++ inst :: post) /\ inst ∉ pre.

(** *** The XMAD pattern

    [lhs] is a left shift by [amount] of a multiply whose first factor is
    the bit field [(l_off, l_width)] of [factor_a]; [rhs] is a multiply
    whose first factor is the bit field [(r_off, r_width)]; the two
    multiplies share their resolved second factor and the two extracts
    their resolved base. *)
Definition xmad_shape (h : list Inst) (lhs rhs : Value)
    (amount l_off l_width r_off r_width factor_a factor_b : Value) : Prop :=
  exists v_lmul v_lbfe v_rbfe rhs_a rhs_b res_a res_b,
    produced_by h lhs ShiftLeftLogical32 [v_lmul; amount]
    /\ produced_by h v_lmul IMul32 [v_lbfe; factor_b]
    /\ produced_by h rhs IMul32 [v_rbfe; rhs_b]
    /\ Resolve h factor_b = Ok res_b /\ Resolve h rhs_b = Ok res_b
    /\ produced_by h v_lbfe BitFieldUExtract [factor_a; l_off; l_width]
    /\ produced_by h v_rbfe BitFieldUExtract [rhs_a; r_off; r_width]
    /\ Resolve h factor_a = Ok res_a /\ Resolve h rhs_a = Ok res_a.

Definition xmad_literals (amount l_off l_width r_off r_width : Value) : bool :=
  bool_decide (amount = ImmU32 16)
  && bool_decide (l_off = ImmU32 16) && bool_decide (l_width = ImmU32 16)
  && bool_decide (r_off = ImmU32 0) && bool_decide (r_width = ImmU32 16).

(** The program after the fold: a fresh [IMul32 (factor_a, factor_b)] is
    linked right before the add and every use of the add names it. *)
Definition xmad_folded (p : Program) (block : BlockId) (inst : InstId)
    (pre post : list InstId) (factor_a factor_b : Value) : Program :=
  let new := length (arena p) in
  replace_uses inst (Opaque new)
    (MkProgram (arena p ++ [MkInst IMul32 [factor_a; factor_b] no_flags None])
               (<[block := pre ++ new :: inst :: post]> (post_order_blocks p))).

(** The claim as the specification words it: every [IAdd32] over the
    pattern is folded, whatever else is attached to it. *)
Definition xmad_claim_as_stated : Prop :=
  forall p block inst lhs rhs fl ps pre post
         amount l_off l_width r_off r_width factor_a factor_b,
    arena p !! inst = Some (MkInst IAdd32 [lhs; rhs] fl ps) ->
    placed p block inst pre post ->
    xmad_shape (arena p) lhs rhs amount l_off l_width r_off r_width
               factor_a factor_b ->
    ConstantPropagation block inst p
    = Ok (tt, if xmad_literals amount l_off l_width r_off r_width
              then xmad_folded p block inst pre post factor_a factor_b
              else p).

(** *** The interpolation idiom, as the specification words it:
    [mul (mul (attrA, x), recip (attrB))] with the attribute read in the
    first position of the inner multiply. *)
Definition fpmul_claim_as_stated : Prop :=
  forall p block inst lhs rhs fl ps v_a x v_b e_a e_b attr,
    arena p !! inst = Some (MkInst FPMul32 [lhs; rhs] fl ps) ->
    no_contraction fl = false ->
    produced_by (arena p) lhs FPMul32 [v_a; x] ->
    produced_by (arena p) rhs FPRecip32 [v_b] ->
    produced_by (arena p) v_a GetAttribute [e_a] ->
    produced_by (arena p) v_b GetAttribute [e_b] ->
    AttributeOf (arena p) e_a = Ok attr ->
    AttributeOf (arena p) e_b = Ok attr ->
    ConstantPropagation block inst p = Ok (tt, replace_uses inst x p).

(** *** Pseudo-operations

    [operands_only inst p p'] says that [p'] differs from [p] at most in
    the operands of [inst]: nothing was emitted, no other instruction was
    rewired, and [inst] kept its opcode. *)
Definition operands_only (inst : InstId) (p p' : Program) : Prop :=
  post_order_blocks p' = post_order_blocks p
  /\ length (arena p') = length (arena p)
  /\ (forall j, j <> inst -> arena p' !! j = arena p !! j)
  /\ (inst_opcode <$> arena p' !! inst) = (inst_opcode <$> arena p !! inst).

Definition pseudo_op_claim_as_stated : Prop :=
  forall p block inst ins p',
    arena p !! inst = Some ins ->
    is_Some (inst_pseudo ins) ->
    ConstantPropagation block inst p = Ok (tt, p') ->
    operands_only inst p p'.

(** The opcodes whose only rule is the all-immediates evaluator, and the
    integer adds: the rules that look at the pseudo-operation. *)
Definition gated (o : Opcode) : bool :=
  match o with
  | IAdd32 | IAdd64
  | SLessThan | ULessThan | SLessThanEqual | ULessThanEqual
  | SGreaterThan | UGreaterThan | SGreaterThanEqual | UGreaterThanEqual
  | IEqual | INotEqual
  | BitFieldUExtract | BitFieldSExtract => true
  | _ => false
  end.

(** *** Composite extraction

    The six extract opcodes with their construct and insert opcodes. *)
Definition composite_families : list (Opcode * Opcode * Opcode) :=
  [ (CompositeExtractF32x2, CompositeConstructF32x2, CompositeInsertF32x2);
    (CompositeExtractF32x3, CompositeConstructF32x3, CompositeInsertF32x3);
    (CompositeExtractF32x4, CompositeConstructF32x4, CompositeInsertF32x4);
    (CompositeExtractF16x2, CompositeConstructF16x2, CompositeInsertF16x2);
    (CompositeExtractF16x3, CompositeConstructF16x3, CompositeInsertF16x3);
    (CompositeExtractF16x4, CompositeConstructF16x4, CompositeInsertF16x4) ].

(** [Chase h insert construct k d v r]: chasing lane [k] from the
    composite [v] through [d] producers ends with [r], the value found or
    [None] when the chase gives up. *)
Inductive Chase (h : list Inst) (insert construct : Opcode) (k : Z)
    : nat -> Value -> option Value -> Prop :=
| Chase_construct v args a :
    produced_by h v construct args ->
    args !! Z.to_nat k = Some a ->
    Chase h insert construct k 1 v (Some a)
| Chase_other_opcode v opc args :
    produced_by h v opc args ->
    opc <> construct -> opc <> insert ->
    Chase h insert construct k 1 v None
| Chase_index_not_constant v base val idx :
    produced_by h v insert [base; val; idx] ->
    IsImmediate h idx = Ok false ->
    Chase h insert construct k 1 v None
| Chase_same_index v base val idx :
    produced_by h v insert [base; val; idx] ->
    U32 h idx = Ok k ->
    Chase h insert construct k 1 v (Some val)
| Chase_constant_base v base val idx k' :
    produced_by h v insert [base; val; idx] ->
    U32 h idx = Ok k' -> k' <> k ->
    IsImmediate h base = Ok true ->
    Chase h insert construct k 1 v None
| Chase_into_base d v base val idx k' r :
    produced_by h v insert [base; val; idx] ->
    U32 h idx = Ok k' -> k' <> k ->
    IsImmediate h base = Ok false ->
    Chase h insert construct k d base r ->
    Chase h insert construct k (S d) v r.

(** * Example programs *)

Definition inst_ (o : Opcode) (args : list Value) : Inst :=
  MkInst o args no_flags None.

(** The six XMAD instructions over two register reads, the add carrying a
    carry pseudo-operation, and a consumer of the add. *)
Definition xmad_program (carry : option InstId) : Program :=
  MkProgram
    [ inst_ GetRegister [ImmReg (R 1)];
      inst_ GetRegister [ImmReg (R 2)];
      inst_ BitFieldUExtract [Opaque 0%nat; ImmU32 0; ImmU32 16];
      inst_ IMul32 [Opaque 2%nat; Opaque 1%nat];
      inst_ BitFieldUExtract [Opaque 0%nat; ImmU32 16; ImmU32 16];
      inst_ IMul32 [Opaque 4%nat; Opaque 1%nat];
      inst_ ShiftLeftLogical32 [Opaque 5%nat; ImmU32 16];
      MkInst IAdd32 [Opaque 6%nat; Opaque 3%nat] no_flags carry;
      inst_ GetCarryFromOp [Opaque 7%nat];
      inst_ LogicalNot [Opaque 7%nat] ]
    [ [0; 1; 2; 3; 4; 5; 6; 7; 8; 9]%nat ].

(** [mul (mul (a, b), recip (attr))] over an attribute read and a
    register read, followed by a consumer. *)
Definition interpolation_program (a b : Value) : Program :=
  MkProgram
    [ inst_ GetAttribute [ImmAttribute 7%nat];
      inst_ GetRegister [ImmReg (R 3)];
      inst_ FPMul32 [a; b];
      inst_ FPRecip32 [Opaque 0%nat];
      inst_ FPMul32 [Opaque 2%nat; Opaque 3%nat];
      inst_ FPRecip32 [Opaque 4%nat] ]
    [ [0; 1; 2; 3; 4; 5]%nat ].

(** Constant-buffer reads, an add over one of them, subtractions, and a
    zero-flag pseudo-operation attached to instruction 4. *)
Definition cbuf_program : Program :=
  MkProgram
    [ inst_ GetCbufU32 [ImmU32 1; ImmU32 64];
      inst_ GetCbufU32 [ImmU32 1; ImmU32 64];
      inst_ GetRegister [ImmReg (R 5)];
      inst_ IAdd32 [Opaque 2%nat; Opaque 0%nat];
      MkInst ISub32 [Opaque 0%nat; Opaque 1%nat] no_flags (Some 5%nat);
      inst_ GetZeroFromOp [Opaque 4%nat];
      inst_ ISub32 [Opaque 3%nat; Opaque 1%nat];
      inst_ ISub32 [Opaque 2%nat; ImmU32 0];
      inst_ LogicalNot [Opaque 4%nat] ]
    [ [0; 1; 2; 3; 4; 5; 6; 7; 8]%nat ].

(** Constant folds: bit-field extracts, logical operations, a compare
    with a pseudo-operation. *)
Definition constants_program : Program :=
  MkProgram
    [ inst_ BitFieldUExtract [ImmU32 255; ImmU32 4; ImmU32 4];
      inst_ BitFieldUExtract [ImmU32 255; ImmU32 4; ImmU32 32];
      inst_ GetPred [ImmPred (P 0)];
      inst_ LogicalAnd [ImmU1 true; Opaque 2%nat];
      inst_ LogicalAnd [Opaque 2%nat; ImmU1 false];
      inst_ LogicalOr [Opaque 4%nat; ImmU1 true];
      inst_ LogicalAnd [ImmU1 true; Opaque 4%nat];
      inst_ IAdd32 [ImmU32 4294967295; ImmU32 2];
      MkInst ULessThan [ImmU32 1; ImmU32 2] no_flags (Some 9%nat);
      inst_ GetZeroFromOp [Opaque 8%nat];
      inst_ SelectU32 [Opaque 6%nat; Opaque 0%nat; Opaque 7%nat] ]
    [ [0; 1; 2; 3; 4; 5; 6; 7; 8; 9; 10]%nat ].

(** A two-lane vector built, overwritten in lane 1, then read back. *)
Definition composite_program : Program :=
  MkProgram
    [ inst_ GetRegister [ImmReg (R 1)];
      inst_ GetRegister [ImmReg (R 2)];
      inst_ GetRegister [ImmReg (R 3)];
      inst_ CompositeConstructF32x2 [Opaque 0%nat; Opaque 1%nat];
      inst_ CompositeInsertF32x2 [Opaque 3%nat; Opaque 2%nat; ImmU32 1];
      inst_ CompositeExtractF32x2 [Opaque 4%nat; ImmU32 0];
      inst_ CompositeExtractF32x2 [Opaque 4%nat; ImmU32 1];
      inst_ FPMul32 [Opaque 5%nat; Opaque 6%nat] ]
    [ [0; 1; 2; 3; 4; 5; 6; 7]%nat ].

(** Extracts at the edge of the word: 32 bits from bit 0, unsigned and
    signed, no bits at bit 32 and no bits at bit 4, with a consumer of
    the first. *)
Definition full_width_program : Program :=
  MkProgram
    [ inst_ BitFieldUExtract [ImmU32 4294967295; ImmU32 0; ImmU32 32];
      inst_ BitFieldUExtract [ImmU32 4294967295; ImmU32 32; ImmU32 0];
      inst_ BitFieldSExtract [ImmU32 4294967295; ImmU32 0; ImmU32 32];
      inst_ LogicalNot [Opaque 0%nat];
      inst_ BitFieldSExtract [ImmU32 255; ImmU32 4; ImmU32 0] ]
    [ [0; 1; 2; 3; 4]%nat ].

(** A logical and of two constants carrying a zero-flag
    pseudo-operation. *)
Definition pseudo_logical_program : Program :=
  MkProgram
    [ MkInst LogicalAnd [ImmU1 true; ImmU1 false] no_flags (Some 1%nat);
      inst_ GetZeroFromOp [Opaque 0%nat] ]
    [ [0; 1]%nat ].

(** * Reasoning about the rules

    The rules are run symbolically, one monadic step at a time. *)

Arguments Resolve : simpl never.
Arguments IsImmediate : simpl never.
Arguments InstRecursive : simpl never.
Arguments U1 : simpl never.
Arguments U32 : simpl never.
Arguments U64 : simpl never.
Arguments F32 : simpl never.
Arguments RegOf : simpl never.
Arguments PredOf : simpl never.
Arguments AttributeOf : simpl never.
Arguments wrap32 : simpl never.
Arguments wrap64 : simpl never.

Section Steps.
Context {A B : Type}.
Implicit Types (k : A -> M B) (p : Program).

Lemma bind_assoc {C} (m : M C) (f : C -> M A) k p :
  bind (bind m f) k p = bind m (fun x => bind (f x) k) p.
Proof. unfold bind. destruct (m p) as [[c p']| |]; reflexivity. Qed.

Lemma bind_ret (a : A) k p : bind (ret a) k p = k a p.
Proof. reflexivity. Qed.

Lemma bind_rd (f : list Inst -> result A) k p a :
  f (arena p) = Ok a -> bind (rd f) k p = k a p.
Proof. intros H. unfold bind, rd. rewrite H. reflexivity. Qed.

Lemma bind_rd_Throw (f : list Inst -> result A) k p e :
  f (arena p) = Throw e -> bind (rd f) k p = Throw e.
Proof. intros H. unfold bind, rd. rewrite H. reflexivity. Qed.

Lemma bind_rd_Fault (f : list Inst -> result A) k p :
  f (arena p) = Fault -> bind (rd f) k p = Fault.
Proof. intros H. unfold bind, rd. rewrite H. reflexivity. Qed.
End Steps.

Section InstSteps.
Context {B : Type}.
Variables (p : Program) (inst : InstId) (ins : Inst).
Hypothesis Hins : arena p !! inst = Some ins.

Lemma bind_GetInst (k : Inst -> M B) : bind (GetInst inst) k p = k ins p.
Proof. unfold GetInst. apply bind_rd. rewrite Hins. reflexivity. Qed.

Lemma bind_GetOpcode (k : Opcode -> M B) :
  bind (GetOpcode inst) k p = k (inst_opcode ins) p.
Proof. unfold GetOpcode. rewrite bind_assoc, bind_GetInst. reflexivity. Qed.

Lemma bind_Flags (k : FpControl -> M B) :
  bind (Flags inst) k p = k (inst_flags ins) p.
Proof. unfold Flags. rewrite bind_assoc, bind_GetInst. reflexivity. Qed.

Lemma bind_Arg (k : Value -> M B) n v :
  inst_args ins !! n = Some v -> bind (Arg inst n) k p = k v p.
Proof.
  intros Hn. unfold Arg. rewrite bind_assoc, bind_GetInst.
  apply bind_rd. rewrite Hn. reflexivity.
Qed.

Lemma bind_HasAssociatedPseudoOperation (k : bool -> M B) :
  bind (HasAssociatedPseudoOperation inst) k p
  = k (match inst_pseudo ins with Some _ => true | None => false end) p.
Proof.
  unfold HasAssociatedPseudoOperation.
  rewrite bind_assoc, bind_GetInst. reflexivity.
Qed.

Lemma bind_AreAllArgsImmediates (k : bool -> M B) b :
  all_immediate (arena p) (inst_args ins) = Ok b ->
  bind (AreAllArgsImmediates inst) k p = k b p.
Proof.
  intros Hb. unfold AreAllArgsImmediates.
  rewrite bind_assoc, bind_GetInst. apply bind_rd. exact Hb.
Qed.


Lemma bind_ReplaceOpcode (k : unit -> M B) o :
  bind (ReplaceOpcode inst o) k p
  = k tt (MkProgram (<[inst := set_opcode o ins]> (arena p))
                    (post_order_blocks p)).
Proof. unfold bind, ReplaceOpcode, update_inst. rewrite Hins. reflexivity. Qed.
End InstSteps.

Lemma bind_ReplaceUsesWith {B} inst v (k : unit -> M B) p :
  bind (ReplaceUsesWith inst v) k p = k tt (replace_uses inst v p).
Proof. reflexivity. Qed.

(** One step of symbolic execution: the first action of the goal's
    computation is discharged from the hypotheses. *)
Ltac side := solve [ eassumption | reflexivity | cbn; eassumption | cbn; lia ].

Ltac step :=
  lazymatch goal with
  | |- bind (bind _ _) _ _ = _ => rewrite bind_assoc
  | |- bind (ret _) _ _ = _ => rewrite bind_ret
  | |- bind (rd _) _ _ = _ => erewrite bind_rd by side
  | |- bind (GetOpcode _) _ _ = _ => erewrite bind_GetOpcode by side
  | |- bind (Flags _) _ _ = _ => erewrite bind_Flags by side
  | |- bind (Arg _ _) _ _ = _ => erewrite bind_Arg by side
  | |- bind (HasAssociatedPseudoOperation _) _ _ = _ =>
      erewrite bind_HasAssociatedPseudoOperation by side
  | |- bind (ReplaceUsesWith _ _) _ _ = _ => rewrite bind_ReplaceUsesWith
  end;
  cbn [inst_opcode inst_args inst_flags inst_pseudo arena post_order_blocks
       negb andb orb].

Ltac steps := repeat step.

(** ** Facts about value queries *)

Section QueryFacts.
Variable h : list Inst.

Lemma Resolve_fuel_stable n v r :
  Resolve_fuel h n v = Ok r -> forall m, Resolve_fuel h m r = Ok r.
Proof.
  revert v. induction n as [|n IH]; intros v Hr m.
  - destruct v; cbn in Hr; try (injection Hr as <-; destruct m; reflexivity).
    destruct (h !! inst) as [ins|] eqn:Hl; [|discriminate].
    destruct (decide (inst_opcode ins = Identity)) as [He|He]; [discriminate|].
    injection Hr as <-.
    destruct m; cbn; rewrite Hl; rewrite decide_False by exact He; reflexivity.
  - destruct v; cbn in Hr; try (injection Hr as <-; destruct m; reflexivity).
    destruct (h !! inst) as [ins|] eqn:Hl; [|discriminate].
    destruct (decide (inst_opcode ins = Identity)) as [He|He].
    + destruct (inst_args ins !! 0%nat) as [a|]; [|discriminate].
      eapply IH; eassumption.
    + injection Hr as <-.
      destruct m; cbn; rewrite Hl; rewrite decide_False by exact He; reflexivity.
Qed.

Lemma Resolve_idem v r : Resolve h v = Ok r -> Resolve h r = Ok r.
Proof. intros Hr. eapply Resolve_fuel_stable. exact Hr. Qed.

Lemma InstRecursive_Resolve v j :
  InstRecursive h v = Ok j -> Resolve h v = Ok (Opaque j).
Proof.
  unfold InstRecursive. destruct (Resolve h v) as [r| |]; cbn; try discriminate.
  destruct r; try discriminate. intros [= ->]. reflexivity.
Qed.

Lemma Resolve_InstRecursive v j :
  Resolve h v = Ok (Opaque j) -> InstRecursive h v = Ok j.
Proof. unfold InstRecursive. intros ->. reflexivity. Qed.

Lemma Resolve_not_immediate v j :
  Resolve h v = Ok (Opaque j) -> IsImmediate h v = Ok false.
Proof. unfold IsImmediate. intros ->. reflexivity. Qed.

Lemma InstRecursive_not_immediate v j :
  InstRecursive h v = Ok j -> IsImmediate h v = Ok false.
Proof. intros H. eapply Resolve_not_immediate, InstRecursive_Resolve, H. Qed.

Lemma InstRecursive_lookup v j :
  InstRecursive h v = Ok j -> is_Some (h !! j).
Proof.
  intros H%InstRecursive_Resolve%Resolve_idem.
  unfold Resolve in H. destruct (length h); cbn in H;
    destruct (h !! j); eauto; discriminate.
Qed.

Lemma U1_immediate v b : U1 h v = Ok b -> IsImmediate h v = Ok true.
Proof.
  unfold U1, IsImmediate. destruct (Resolve h v) as [r| |]; cbn; try discriminate.
  destruct r; try discriminate. reflexivity.
Qed.

Lemma U32_immediate v n : U32 h v = Ok n -> IsImmediate h v = Ok true.
Proof.
  unfold U32, IsImmediate. destruct (Resolve h v) as [r| |]; cbn; try discriminate.
  destruct r; try discriminate. reflexivity.
Qed.




Lemma U32_range v n : U32 h v = Ok n -> 0 <= n < 2 ^ 32.
Proof.
  unfold U32. destruct (Resolve h v) as [r| |]; cbn; try discriminate.
  destruct r; try discriminate. intros [= <-]. apply Z.mod_pos_bound. lia.
Qed.
End QueryFacts.

(** ** What whole-instruction replacement does to the arena *)

Lemma replace_uses_lookup i v p j :
  arena (replace_uses i v p) !! j = rewire_inst i v <$> arena p !! j.
Proof. unfold replace_uses. cbn. apply list_lookup_fmap. Qed.

Lemma rewire_value_use i v : rewire_value i v (Opaque i) = v.
Proof. unfold rewire_value. rewrite decide_True; reflexivity. Qed.

Lemma rewire_value_other i v a : a <> Opaque i -> rewire_value i v a = a.
Proof. intros H. unfold rewire_value. rewrite decide_False; auto. Qed.

(** After the replacement, every argument slot that named the instruction
    holds the replacement, and every other slot is as before. *)
Lemma replace_uses_rewires i v p j ins n a :
  arena p !! j = Some ins ->
  inst_args ins !! n = Some a ->
  exists ins',
    arena (replace_uses i v p) !! j = Some ins'
    /\ inst_opcode ins' = inst_opcode ins
    /\ inst_args ins' !! n = Some (if decide (a = Opaque i) then v else a).
Proof.
  intros Hj Hn. exists (rewire_inst i v ins).
  rewrite replace_uses_lookup, Hj. repeat split.
  cbn. rewrite list_lookup_fmap, Hn. reflexivity.
Qed.

(** * The folding rules, claim by claim *)

(** ** Bit-field extraction of constants *)

Lemma mask_wrap count :
  0 <= count < 32 ->
  wrap32 (wrap32 (Z.shiftl 1 count) - 1) = Z.shiftl 1 count - 1.
Proof.
  intros Hc. rewrite Z.shiftl_1_l. unfold wrap32.
  assert (0 < 2 ^ count < 2 ^ 32).
  { split; [apply Z.pow_pos_nonneg; lia|apply Z.pow_lt_mono_r; lia]. }
  rewrite (Z.mod_small (2 ^ count)) by lia. apply Z.mod_small. lia.
Qed.

(** The closure of the unsigned extract on 32-bit operands: it throws
    above 32 bits, has a value when both shifts are by less than 32, and
    is undefined in between. *)
Lemma BitFieldUExtract_fn_cases base shift count :
  0 <= shift -> 0 <= count ->
  BitFieldUExtract_fn base shift count
  = if shift + count <=? 32
    then if (shift <? 32) && (count <? 32)
         then Ok (ImmU32 (Z.land (Z.shiftr base shift)
                                 (Z.shiftl 1 count - 1)))
         else Fault
    else Throw LogicError.
Proof.
  intros Hs Hc. unfold BitFieldUExtract_fn, shift_amount.
  destruct (Z.leb_spec (shift + count) 32) as [Hle|Hgt].
  - rewrite (proj2 (Z.ltb_ge _ _)) by lia.
    destruct (Z.ltb_spec shift 32); cbn [rbind andb]; [|reflexivity].
    destruct (Z.ltb_spec count 32); cbn [rbind]; [|reflexivity].
    rewrite mask_wrap by lia. reflexivity.
  - rewrite (proj2 (Z.ltb_lt _ _)) by lia. reflexivity.
Qed.

(** C1.  A [BitFieldUExtract] whose base, shift and count are constants
    and which carries no pseudo-operation.  When [shift + count > 32] the
    pass throws the logic error and produces no program.  When
    [shift + count <= 32] and both [shift] and [count] are below 32,
    every use of the instruction is replaced by the constant
    [(base >> shift) & ((1 << count) - 1)].  In the two cases that remain
    -- [count = 32] at [shift = 0], the extract of a whole word, and
    [shift = 32] at [count = 0] -- the guard of the closure is passed and
    the closure shifts a 32-bit operand by 32, which C++ leaves
    undefined: the rule has no outcome there, and in particular does not
    deliver the constant [(base >> shift) & ((1 << count) - 1)]. *)
Theorem C1_bitfield_uextract_immediates
    (p : Program) (block : BlockId) (inst : InstId)
    (a_base a_shift a_count : Value) (fl : FpControl) (base shift count : Z) :
  arena p !! inst
    = Some (MkInst BitFieldUExtract [a_base; a_shift; a_count] fl None) ->
  U32 (arena p) a_base = Ok base ->
  U32 (arena p) a_shift = Ok shift ->
  U32 (arena p) a_count = Ok count ->
  ConstantPropagation block inst p
  = if shift + count <=? 32
    then if (shift <? 32) && (count <? 32)
         then Ok (tt, replace_uses inst
                        (ImmU32 (Z.land (Z.shiftr base shift)
                                        (Z.shiftl 1 count - 1))) p)
         else Fault
    else Throw LogicError.
Proof.
  intros Hi Hb Hs Hc.
  pose proof (U32_range _ _ _ Hs). pose proof (U32_range _ _ _ Hc).
  unfold ConstantPropagation. step.
  unfold FoldWhenAllImmediates. step.
  erewrite bind_AreAllArgsImmediates with (b := true); [|eassumption|].
  2:{ cbn [inst_args all_immediate].
      rewrite (U32_immediate _ _ _ Hb), (U32_immediate _ _ _ Hs),
        (U32_immediate _ _ _ Hc). reflexivity. }
  cbn [negb]. steps. unfold EvalImmediates3. steps.
  pose proof (BitFieldUExtract_fn_cases base shift count) as Hfn.
  destruct (shift + count <=? 32).
  - destruct ((shift <? 32) && (count <? 32)).
    + erewrite bind_rd; [|cbn beta; apply Hfn; lia]. steps. reflexivity.
    + erewrite bind_rd_Fault; [reflexivity|cbn beta; apply Hfn; lia].
  - erewrite bind_rd_Throw; [reflexivity|cbn beta; apply Hfn; lia].
Qed.

(** C1 on two extracts: bits 4..7 of 255, which fold to 15, and the
    whole word [0xFFFFFFFF] (32 bits from bit 0), where the closure
    evaluates [1U << 32]. *)
Lemma C1_witness :
  ConstantPropagation 0%nat 0%nat constants_program
  = Ok (tt, replace_uses 0%nat (ImmU32 15) constants_program)
  /\ ConstantPropagation 0%nat 0%nat full_width_program = Fault.
Proof.
  split.
  - exact (C1_bitfield_uextract_immediates constants_program 0%nat 0%nat
             (ImmU32 255) (ImmU32 4) (ImmU32 4) no_flags 255 4 4
             eq_refl eq_refl eq_refl eq_refl).
  - exact (C1_bitfield_uextract_immediates full_width_program 0%nat 0%nat
             (ImmU32 4294967295) (ImmU32 0) (ImmU32 32) no_flags
             4294967295 0 32 eq_refl eq_refl eq_refl eq_refl).
Defined.

(** The second extract of the example asks for 32 bits from bit 4. *)
Example bitfield_uextract_overflow :
  ConstantPropagation 0%nat 1%nat constants_program = Throw LogicError.
Proof. reflexivity. Qed.

(** The replaced constant reaches the consumer of the extract. *)
Example bitfield_uextract_consumer :
  exists p',
    ConstantPropagation 0%nat 0%nat constants_program = Ok (tt, p')
    /\ inst_args <$> arena p' !! 10%nat
       = Some [Opaque 6%nat; ImmU32 15; Opaque 7%nat].
Proof. eexists. split; reflexivity. Qed.

(** The extract of no bits at bit 32 evaluates [base >> 32]. *)
Example bitfield_uextract_shift_by_width :
  ConstantPropagation 0%nat 1%nat full_width_program = Fault.
Proof. reflexivity. Qed.

(** The closure of the signed extract shifts left by
    [32 - (shift + count)] and then right by [32 - count]: below the
    guard it has a value exactly when [count] is not 0. *)
Lemma BitFieldSExtract_fn_cases base shift count :
  0 <= shift -> 0 <= count ->
  BitFieldSExtract_fn base shift count
  = if shift + count <=? 32
    then if 0 <? count
         then Ok (ImmU32 (wrap32 (Z.shiftr
                                    (to_s32 (Z.shiftl base
                                               (32 - (shift + count))))
                                    (32 - count))))
         else Fault
    else Throw LogicError.
Proof.
  intros Hs Hc. unfold BitFieldSExtract_fn, shift_amount. cbn zeta.
  destruct (Z.leb_spec (shift + count) 32) as [Hle|Hgt].
  - rewrite (proj2 (Z.ltb_ge _ _)) by lia.
    destruct (Z.ltb_spec 0 count).
    + rewrite !(proj2 (Z.ltb_lt _ 32)) by lia. reflexivity.
    + destruct (32 - (shift + count) <? 32); cbn [rbind]; [|reflexivity].
      rewrite (proj2 (Z.ltb_ge _ _)) by lia. reflexivity.
  - rewrite (proj2 (Z.ltb_lt _ _)) by lia. reflexivity.
Qed.

(** The signed extract of a whole word shifts by 0 twice; the signed
    extract of no bits shifts right by 32. *)
Example bitfield_sextract_whole_word :
  ConstantPropagation 0%nat 2%nat full_width_program
  = Ok (tt, replace_uses 2%nat (ImmU32 4294967295) full_width_program).
Proof. reflexivity. Qed.

Example bitfield_sextract_no_bits :
  ConstantPropagation 0%nat 4%nat full_width_program = Fault.
Proof. reflexivity. Qed.

(** ** 32-bit subtraction *)

Ltac decide_tests :=
  repeat first
    [ rewrite bool_decide_eq_true_2 by (reflexivity || assumption)
    | rewrite bool_decide_eq_false_2 by (discriminate || assumption)
    | rewrite decide_True by (reflexivity || assumption)
    | rewrite decide_False by (discriminate || assumption) ];
  cbn [negb andb orb].

Lemma all_immediate_two h a0 a1 imm0 imm1 :
  IsImmediate h a0 = Ok imm0 ->
  IsImmediate h a1 = Ok imm1 ->
  all_immediate h [a0; a1] = Ok (imm0 && imm1).
Proof.
  intros H0 H1. cbn [all_immediate]. rewrite H0. cbn [rbind].
  destruct imm0; [|reflexivity]. rewrite H1. destruct imm1; reflexivity.
Qed.

(** C10.  An [ISub32] with exactly one constant operand is not touched:
    the program after the pass is the program before it, so in particular
    [ISub32 (x, 0)] is not simplified to [x]. *)
Theorem C10_isub32_one_immediate_unchanged
    (p : Program) (block : BlockId) (inst : InstId)
    (a0 a1 : Value) (fl : FpControl) (ps : option InstId)
    (imm0 imm1 : bool) :
  arena p !! inst = Some (MkInst ISub32 [a0; a1] fl ps) ->
  IsImmediate (arena p) a0 = Ok imm0 ->
  IsImmediate (arena p) a1 = Ok imm1 ->
  xorb imm0 imm1 = true ->
  ConstantPropagation block inst p = Ok (tt, p).
Proof.
  intros Hi H0 H1 Hx. unfold ConstantPropagation. step.
  unfold FoldISub32, FoldWhenAllImmediates. step.
  erewrite bind_AreAllArgsImmediates;
    [|eassumption|apply all_immediate_two; eassumption].
  assert (imm0 && imm1 = false) as -> by (destruct imm0, imm1; easy).
  cbn [negb]. steps.
  destruct imm0; [steps; reflexivity|].
  steps. destruct imm1; [reflexivity|discriminate].
Qed.

Lemma equal_cbuf_same {B} (k : bool -> M B) p a b slot offset fla psa flb psb :
  arena p !! a = Some (MkInst GetCbufU32 [slot; offset] fla psa) ->
  arena p !! b = Some (MkInst GetCbufU32 [slot; offset] flb psb) ->
  bind (equal_cbuf a b) k p = k true p.
Proof.
  intros Ha Hb. unfold equal_cbuf. steps. decide_tests. steps.
  decide_tests. steps. decide_tests. steps. decide_tests. reflexivity.
Qed.

Lemma equal_cbuf_left_other {B} (k : bool -> M B) p a b ins :
  arena p !! a = Some ins ->
  inst_opcode ins <> GetCbufU32 ->
  bind (equal_cbuf a b) k p = k false p.
Proof.
  intros Ha Hne. unfold equal_cbuf. steps. decide_tests. reflexivity.
Qed.

Lemma equal_cbuf_right_other {B} (k : bool -> M B) p a b ins_a ins_b :
  arena p !! a = Some ins_a ->
  arena p !! b = Some ins_b ->
  inst_opcode ins_b <> GetCbufU32 ->
  bind (equal_cbuf a b) k p = k false p.
Proof.
  intros Ha Hb Hne. unfold equal_cbuf. steps.
  destruct (decide (inst_opcode ins_a = GetCbufU32)) as [He|He].
  - decide_tests. steps. decide_tests. reflexivity.
  - decide_tests. reflexivity.
Qed.

(** C7.  An [ISub32] whose two operands are reads of the same constant
    buffer slot and offset has all its uses replaced by the constant 0. *)
Theorem C7_isub32_same_cbuf_is_zero
    (p : Program) (block : BlockId) (inst : InstId)
    (a0 a1 : Value) (fl : FpControl) (ps : option InstId)
    (slot offset : Value) :
  arena p !! inst = Some (MkInst ISub32 [a0; a1] fl ps) ->
  produced_by (arena p) a0 GetCbufU32 [slot; offset] ->
  produced_by (arena p) a1 GetCbufU32 [slot; offset] ->
  ConstantPropagation block inst p
  = Ok (tt, replace_uses inst (ImmU32 0) p).
Proof.
  intros Hi (op_a & fla & psa & H0 & Ha) (op_b & flb & psb & H1 & Hb).
  pose proof (InstRecursive_not_immediate _ _ _ H0) as N0.
  pose proof (InstRecursive_not_immediate _ _ _ H1) as N1.
  unfold ConstantPropagation. step.
  unfold FoldISub32, FoldWhenAllImmediates. step.
  erewrite bind_AreAllArgsImmediates;
    [|eassumption|apply all_immediate_two; eassumption].
  cbn [negb andb]. steps.
  erewrite equal_cbuf_same by eassumption. reflexivity.
Qed.

(** C6.  An [ISub32] one of whose operands is [IAdd32 (x, c)] with [c] a
    constant-buffer read, the other operand being a read of the same slot
    and offset, has all its uses replaced by [x], in either operand
    order and whatever [x] is. *)
Theorem C6_isub32_add_cbuf_cancels
    (p : Program) (block : BlockId) (inst : InstId)
    (add_first : bool) (v_add v_cbuf : Value)
    (fl : FpControl) (ps : option InstId) (x c slot offset : Value) :
  arena p !! inst
    = Some (MkInst ISub32
              (if add_first then [v_add; v_cbuf] else [v_cbuf; v_add]) fl ps) ->
  produced_by (arena p) v_add IAdd32 [x; c] ->
  produced_by (arena p) c GetCbufU32 [slot; offset] ->
  produced_by (arena p) v_cbuf GetCbufU32 [slot; offset] ->
  ConstantPropagation block inst p = Ok (tt, replace_uses inst x p).
Proof.
  intros Hi (i_add & fl_add & ps_add & Hadd & Ha)
    (i_cbuf' & fl_c' & ps_c' & Hc & Hcbuf')
    (i_cbuf & fl_c & ps_c & Hcb & Hcbuf).
  pose proof (InstRecursive_not_immediate _ _ _ Hadd) as Nadd.
  pose proof (InstRecursive_not_immediate _ _ _ Hcb) as Ncb.
  pose proof (InstRecursive_not_immediate _ _ _ Hc) as Nc.
  unfold ConstantPropagation. step.
  unfold FoldISub32, FoldWhenAllImmediates. step.
  destruct add_first.
  - erewrite bind_AreAllArgsImmediates;
      [|eassumption|apply all_immediate_two; eassumption].
    cbn [negb andb]. steps.
    erewrite equal_cbuf_left_other by (eassumption || discriminate).
    steps. decide_tests. steps. decide_tests. steps. decide_tests. steps.
    erewrite equal_cbuf_same by eassumption. reflexivity.
  - erewrite bind_AreAllArgsImmediates;
      [|eassumption|apply all_immediate_two; eassumption].
    cbn [negb andb]. steps.
    erewrite equal_cbuf_right_other by (eassumption || discriminate).
    steps. decide_tests. steps. decide_tests. steps. decide_tests. steps.
    erewrite equal_cbuf_same by eassumption. reflexivity.
Qed.

(** C10 on [ISub32 (r5, 0)] of the constant-buffer example. *)
Lemma C10_witness :
  ConstantPropagation 0%nat 7%nat cbuf_program = Ok (tt, cbuf_program).
Proof.
  exact (C10_isub32_one_immediate_unchanged cbuf_program 0%nat 7%nat
           (Opaque 2%nat) (ImmU32 0) no_flags None false true
           eq_refl eq_refl eq_refl eq_refl).
Defined.

(** C7 on the subtraction of the two reads of slot 1, offset 64. *)
Lemma C7_witness :
  ConstantPropagation 0%nat 4%nat cbuf_program
  = Ok (tt, replace_uses 4%nat (ImmU32 0) cbuf_program).
Proof.
  apply (C7_isub32_same_cbuf_is_zero cbuf_program 0%nat 4%nat
           (Opaque 0%nat) (Opaque 1%nat) no_flags (Some 5%nat)
           (ImmU32 1) (ImmU32 64)).
  - reflexivity.
  - exists 0%nat, no_flags, None. split; reflexivity.
  - exists 1%nat, no_flags, None. split; reflexivity.
Defined.

(** C6 on [ISub32 (IAdd32 (r5, cbuf), cbuf)]: the uses become [r5]. *)
Lemma C6_witness :
  ConstantPropagation 0%nat 6%nat cbuf_program
  = Ok (tt, replace_uses 6%nat (Opaque 2%nat) cbuf_program).
Proof.
  apply (C6_isub32_add_cbuf_cancels cbuf_program 0%nat 6%nat true
           (Opaque 3%nat) (Opaque 1%nat) no_flags None
           (Opaque 2%nat) (Opaque 0%nat) (ImmU32 1) (ImmU32 64)).
  - reflexivity.
  - exists 3%nat, no_flags, None. split; reflexivity.
  - exists 0%nat, no_flags, None. split; reflexivity.
  - exists 1%nat, no_flags, None. split; reflexivity.
Defined.

(** The rule reads the operands of the add in order: with the
    constant-buffer read first and a register read second, nothing is
    folded. *)
Example isub32_add_operand_order :
  let p := MkProgram
             [ inst_ GetCbufU32 [ImmU32 1; ImmU32 64];
               inst_ GetRegister [ImmReg (R 5)];
               inst_ IAdd32 [Opaque 0%nat; Opaque 1%nat];
               inst_ ISub32 [Opaque 2%nat; Opaque 0%nat];
               inst_ LogicalNot [Opaque 3%nat] ]
             [ [0; 1; 2; 3; 4]%nat ] in
  ConstantPropagation 0%nat 3%nat p = Ok (tt, p).
Proof. reflexivity. Qed.

(** ** The commutative folder *)



Section FoldCommutativeCases.
Variables (T : ImmTy) (imm_fn : sem T -> sem T -> sem T).
Variables (p : Program) (inst : InstId) (opc : Opcode) (lhs rhs : Value).
Variables (fl : FpControl) (ps : option InstId).
Hypothesis Hinst : arena p !! inst = Some (MkInst opc [lhs; rhs] fl ps).




End FoldCommutativeCases.




(** ** Logical and / or with a constant second operand *)

Lemma FoldCommutative_bool_constants imm_fn p inst opc lhs rhs fl ps a b :
  arena p !! inst = Some (MkInst opc [lhs; rhs] fl ps) ->
  U1 (arena p) lhs = Ok a ->
  U1 (arena p) rhs = Ok b ->
  FoldCommutative T_bool imm_fn inst p
  = Ok (false, replace_uses inst (ImmU1 (imm_fn a b)) p).
Proof.
  intros Hi Ha Hb.
  pose proof (U1_immediate _ _ _ Ha). pose proof (U1_immediate _ _ _ Hb).
  unfold FoldCommutative. steps. reflexivity.
Qed.

Lemma FoldCommutative_right_constant {B} T imm_fn (k : bool -> M B)
    p inst opc lhs rhs fl ps prod pins :
  arena p !! inst = Some (MkInst opc [lhs; rhs] fl ps) ->
  InstRecursive (arena p) lhs = Ok prod ->
  IsImmediate (arena p) rhs = Ok true ->
  arena p !! prod = Some pins ->
  inst_opcode pins <> opc ->
  bind (FoldCommutative T imm_fn inst) k p = k true p.
Proof.
  intros Hi Hl Hr Hp Hne.
  pose proof (InstRecursive_not_immediate _ _ _ Hl).
  unfold FoldCommutative. steps. decide_tests. steps. reflexivity.
Qed.

(** What the two rules do once the folder has answered [true]. *)
Lemma logical_after_canonicalisation
    (p p1 : Program) (inst : InstId) (disjunction : bool)
    (o1 : Opcode) (x c : Value) (fl1 : FpControl) (ps1 : option InstId)
    (bv : bool) :
  FoldCommutative T_bool (if disjunction then orb else andb) inst p
    = Ok (true, p1) ->
  arena p1 !! inst = Some (MkInst o1 [x; c] fl1 ps1) ->
  U1 (arena p1) c = Ok bv ->
  (if disjunction then FoldLogicalOr else FoldLogicalAnd) inst p
  = Ok (tt, replace_uses inst
              (if disjunction
               then (if bv then ImmU1 true else x)
               else (if bv then x else ImmU1 false)) p1).
Proof.
  intros Hfc Hi1 Hc. pose proof (U1_immediate _ _ _ Hc) as Himm.
  destruct disjunction.
  - unfold FoldLogicalOr, bind at 1. rewrite Hfc. cbn [negb]. steps.
    destruct bv; steps; reflexivity.
  - unfold FoldLogicalAnd, bind at 1. rewrite Hfc. cbn [negb]. steps.
    destruct bv; steps; reflexivity.
Qed.

(** C9.  A [LogicalAnd] whose second operand is constant once the
    commutative folder has run:
    - when the folder canonicalised the operands (it answered [true] and
      left the program [p1]), [true] replaces every use by the first
      operand and [false] by the constant [false]; for [LogicalOr],
      [true] gives the constant [true] and [false] the first operand;
    - when both operands were constants [a] and [b] the folder itself
      replaced every use, by the same choice made on the constants. *)
Theorem C9_logical_constant_second_operand
    (p : Program) (block : BlockId) (inst : InstId) (disjunction : bool)
    (lhs rhs : Value) (fl : FpControl) (ps : option InstId) :
  arena p !! inst
    = Some (MkInst (if disjunction then LogicalOr else LogicalAnd)
                   [lhs; rhs] fl ps) ->
  (forall p1 o1 x c fl1 ps1 bv,
      FoldCommutative T_bool (if disjunction then orb else andb) inst p
        = Ok (true, p1) ->
      arena p1 !! inst = Some (MkInst o1 [x; c] fl1 ps1) ->
      U1 (arena p1) c = Ok bv ->
      ConstantPropagation block inst p
      = Ok (tt, replace_uses inst
                  (if disjunction
                   then (if bv then ImmU1 true else x)
                   else (if bv then x else ImmU1 false)) p1))
  /\ (forall a b,
      U1 (arena p) lhs = Ok a ->
      U1 (arena p) rhs = Ok b ->
      ConstantPropagation block inst p
      = Ok (tt, replace_uses inst
                  (if disjunction
                   then (if b then ImmU1 true else ImmU1 a)
                   else (if b then ImmU1 a else ImmU1 false)) p)).
Proof.
  intros Hi. split.
  - intros p1 o1 x c fl1 ps1 bv Hfc Hi1 Hc.
    unfold ConstantPropagation. step.
    pose proof (logical_after_canonicalisation _ _ _ _ _ _ _ _ _ _
                  Hfc Hi1 Hc) as H.
    destruct disjunction; exact H.
  - intros a b Ha Hb.
    unfold ConstantPropagation. step.
    destruct disjunction.
    + unfold FoldLogicalOr, bind at 1.
      erewrite FoldCommutative_bool_constants by eassumption.
      destruct a, b; reflexivity.
    + unfold FoldLogicalAnd, bind at 1.
      erewrite FoldCommutative_bool_constants by eassumption.
      destruct a, b; reflexivity.
Qed.

(** C9 on [LogicalAnd (true, LogicalAnd (p0, false))]: the constants are
    merged into [false], which then decides the fold. *)
Lemma C9_witness :
  ConstantPropagation 0%nat 6%nat constants_program
  = Ok (tt, replace_uses 6%nat (ImmU1 false)
              (store_inst 6%nat (inst_ LogicalAnd [Opaque 2%nat; ImmU1 false])
                 constants_program)).
Proof.
  exact (proj1 (C9_logical_constant_second_operand constants_program 0%nat
                  6%nat false (ImmU1 true) (Opaque 4%nat) no_flags None
                  eq_refl)
           _ LogicalAnd (Opaque 2%nat) (ImmU1 false) no_flags None false
           eq_refl eq_refl eq_refl).
Defined.

(** [LogicalOr (x, true)] with [x] not a constant: the consumer-visible
    result is the constant [true]. *)
Example logical_or_true :
  ConstantPropagation 0%nat 5%nat constants_program
  = Ok (tt, replace_uses 5%nat (ImmU1 true) constants_program).
Proof. reflexivity. Qed.

(** The laws in their plain form: [x] is produced by an instruction other
    than a [LogicalAnd], so the folder has nothing to merge. *)
Corollary logical_and_constant_right
    (p : Program) (block : BlockId) (inst : InstId) (x c : Value)
    (fl : FpControl) (ps : option InstId) (opc : Opcode)
    (args : list Value) (b : bool) :
  arena p !! inst = Some (MkInst LogicalAnd [x; c] fl ps) ->
  produced_by (arena p) x opc args ->
  opc <> LogicalAnd ->
  U1 (arena p) c = Ok b ->
  ConstantPropagation block inst p
  = Ok (tt, replace_uses inst (if b then x else ImmU1 false) p).
Proof.
  intros Hi (prod & flp & psp & Hx & Hp) Hne Hc.
  pose proof (U1_immediate _ _ _ Hc) as Himm.
  unfold ConstantPropagation. step. unfold FoldLogicalAnd.
  erewrite FoldCommutative_right_constant by (eassumption || exact Hne).
  cbn [negb]. steps. destruct b; steps; reflexivity.
Qed.

Corollary logical_or_constant_right
    (p : Program) (block : BlockId) (inst : InstId) (x c : Value)
    (fl : FpControl) (ps : option InstId) (opc : Opcode)
    (args : list Value) (b : bool) :
  arena p !! inst = Some (MkInst LogicalOr [x; c] fl ps) ->
  produced_by (arena p) x opc args ->
  opc <> LogicalOr ->
  U1 (arena p) c = Ok b ->
  ConstantPropagation block inst p
  = Ok (tt, replace_uses inst (if b then ImmU1 true else x) p).
Proof.
  intros Hi (prod & flp & psp & Hx & Hp) Hne Hc.
  pose proof (U1_immediate _ _ _ Hc) as Himm.
  unfold ConstantPropagation. step. unfold FoldLogicalOr.
  erewrite FoldCommutative_right_constant by (eassumption || exact Hne).
  cbn [negb]. steps. destruct b; steps; reflexivity.
Qed.

(** ** The interpolation idiom of [FPMul32] *)

Lemma produced_by_intro h v opc args i fl ps :
  InstRecursive h v = Ok i ->
  h !! i = Some (MkInst opc args fl ps) ->
  produced_by h v opc args.
Proof. intros Hr Hl. exists i, fl, ps. split; assumption. Qed.

Lemma produced_by_resolved h v opc args :
  produced_by h v opc args ->
  exists i fl ps,
    Resolve h v = Ok (Opaque i)
    /\ IsImmediate h v = Ok false
    /\ InstRecursive h v = Ok i
    /\ IsImmediate h (Opaque i) = Ok false
    /\ InstRecursive h (Opaque i) = Ok i
    /\ h !! i = Some (MkInst opc args fl ps).
Proof.
  intros (i & fl & ps & Hr & Hl). exists i, fl, ps.
  pose proof (InstRecursive_Resolve _ _ _ Hr) as Hres.
  pose proof (Resolve_idem _ _ _ Hres) as Hidem.
  repeat split; eauto using Resolve_not_immediate, Resolve_InstRecursive.
Qed.

(** The specification's wording puts the attribute read first in the
    inner multiply; the rule looks for it in second position.  With the
    attribute first and a register read second nothing is folded. *)
Lemma C3_counterexample :
  ConstantPropagation 0%nat 4%nat
    (interpolation_program (Opaque 0%nat) (Opaque 1%nat))
  = Ok (tt, interpolation_program (Opaque 0%nat) (Opaque 1%nat))
  /\ ~ fpmul_claim_as_stated.
Proof.
  split; [reflexivity|]. intros claim.
  assert (ConstantPropagation 0%nat 4%nat
            (interpolation_program (Opaque 0%nat) (Opaque 1%nat))
          = Ok (tt, replace_uses 4%nat (Opaque 1%nat)
                      (interpolation_program (Opaque 0%nat) (Opaque 1%nat))))
    as H.
  { eapply claim with (attr := 7%nat) (v_a := Opaque 0%nat)
      (v_b := Opaque 0%nat);
      first [ reflexivity | eapply produced_by_intro; reflexivity ]. }
  vm_compute in H. discriminate H.
Qed.

(** C3 (amended).  An [FPMul32] is [mul (mul (x, s), recip (t))] with [s]
    and [t] reads of shader input attributes: unless the no-contraction
    flag is set, and provided the two reads name the same attribute,
    every use of the outer multiply is replaced by [x]; with the flag set
    or different attributes the program is unchanged. *)
Theorem C3_fpmul_interpolation
    (p : Program) (block : BlockId) (inst : InstId)
    (lhs rhs : Value) (fl : FpControl) (ps : option InstId)
    (x s t e_s e_t : Value) (attr_s attr_t : Attribute) :
  arena p !! inst = Some (MkInst FPMul32 [lhs; rhs] fl ps) ->
  produced_by (arena p) lhs FPMul32 [x; s] ->
  produced_by (arena p) rhs FPRecip32 [t] ->
  produced_by (arena p) s GetAttribute [e_s] ->
  produced_by (arena p) t GetAttribute [e_t] ->
  AttributeOf (arena p) e_s = Ok attr_s ->
  AttributeOf (arena p) e_t = Ok attr_t ->
  ConstantPropagation block inst p
  = Ok (tt, if no_contraction fl then p
            else if decide (attr_t = attr_s) then replace_uses inst x p
            else p).
Proof.
  intros Hi Hl Hr Hs Ht Has Hat.
  destruct (produced_by_resolved _ _ _ _ Hl)
    as (i_mul & fl_m & ps_m & _ & Nl & Il & _ & _ & Hmul).
  destruct (produced_by_resolved _ _ _ _ Hr)
    as (i_rcp & fl_r & ps_r & _ & Nr & Ir & _ & _ & Hrcp).
  destruct (produced_by_resolved _ _ _ _ Hs)
    as (i_s & fl_s & ps_s & Rs & _ & _ & Ns & Is & Hgs).
  destruct (produced_by_resolved _ _ _ _ Ht)
    as (i_t & fl_t & ps_t & _ & Nt & It & _ & _ & Hgt).
  unfold ConstantPropagation. step. unfold FoldFPMul32. step.
  destruct (no_contraction fl); [reflexivity|].
  steps. decide_tests. steps. decide_tests. steps.
  destruct (decide (attr_t = attr_s)) as [He|He]; decide_tests.
  - steps. reflexivity.
  - reflexivity.
Qed.

(** C3 on [mul (mul (r3, attr), recip (attr))]: the uses become [r3]. *)
Lemma C3_witness :
  ConstantPropagation 0%nat 4%nat
    (interpolation_program (Opaque 1%nat) (Opaque 0%nat))
  = Ok (tt, replace_uses 4%nat (Opaque 1%nat)
              (interpolation_program (Opaque 1%nat) (Opaque 0%nat))).
Proof.
  apply (C3_fpmul_interpolation
           (interpolation_program (Opaque 1%nat) (Opaque 0%nat))
           0%nat 4%nat (Opaque 2%nat) (Opaque 3%nat) no_flags None
           (Opaque 1%nat) (Opaque 0%nat) (Opaque 0%nat)
           (ImmAttribute 7%nat) (ImmAttribute 7%nat) 7%nat 7%nat);
    first [ reflexivity | eapply produced_by_intro; reflexivity ].
Defined.

(** ** The XMAD multiply idiom of [IAdd32] *)

Lemma insert_before_placed inst new pre post :
  inst ∉ pre ->
  insert_before inst new (pre ++ inst :: post)
  = Some (pre ++ new :: inst :: post).
Proof.
  induction pre as [|x pre IH]; intros Hnot; cbn.
  - rewrite decide_True by reflexivity. reflexivity.
  - apply not_elem_of_cons in Hnot as [Hne Hnot].
    rewrite decide_False by congruence. rewrite IH by assumption. reflexivity.
Qed.

Lemma bind_IMul {B} (k : Value -> M B) p block inst pre post a b :
  placed p block inst pre post ->
  bind (IMul block inst a b) k p
  = k (Opaque (length (arena p)))
      (MkProgram (arena p ++ [MkInst IMul32 [a; b] no_flags None])
         (<[block := pre ++ length (arena p) :: inst :: post]>
            (post_order_blocks p))).
Proof.
  intros [Hblk Hnot]. unfold bind, IMul, prepend_new_inst.
  rewrite Hblk, insert_before_placed by assumption. reflexivity.
Qed.

Lemma FoldCommutative_no_immediate {B} T imm_fn (k : bool -> M B)
    p inst opc lhs rhs fl ps :
  arena p !! inst = Some (MkInst opc [lhs; rhs] fl ps) ->
  IsImmediate (arena p) lhs = Ok false ->
  IsImmediate (arena p) rhs = Ok false ->
  bind (FoldCommutative T imm_fn inst) k p = k true p.
Proof.
  intros Hi Hl Hr. unfold FoldCommutative. steps. reflexivity.
Qed.

(** The add of the example carries a carry pseudo-operation: the rule
    returns before looking at the pattern, and the add stays. *)
Lemma C2_counterexample :
  ConstantPropagation 0%nat 7%nat (xmad_program (Some 8%nat))
  = Ok (tt, xmad_program (Some 8%nat))
  /\ ~ xmad_claim_as_stated.
Proof.
  split; [reflexivity|]. intros claim.
  assert (ConstantPropagation 0%nat 7%nat (xmad_program (Some 8%nat))
          = Ok (tt, xmad_folded (xmad_program (Some 8%nat)) 0%nat 7%nat
                      [0; 1; 2; 3; 4; 5; 6]%nat [8; 9]%nat
                      (Opaque 0%nat) (Opaque 1%nat))) as H.
  { eapply (claim (xmad_program (Some 8%nat)) 0%nat 7%nat _ _ _ _ _ _
                  (ImmU32 16) (ImmU32 16) (ImmU32 16) (ImmU32 0) (ImmU32 16)).
    - reflexivity.
    - split; [reflexivity|]. rewrite list_elem_of_In. cbn. intuition discriminate.
    - exists (Opaque 5%nat), (Opaque 4%nat), (Opaque 2%nat), (Opaque 0%nat),
        (Opaque 1%nat), (Opaque 0%nat), (Opaque 1%nat).
      repeat split;
        first [ reflexivity | eapply produced_by_intro; reflexivity ]. }
  vm_compute in H. discriminate H.
Qed.

Ltac go := repeat (progress (steps; decide_tests)).

(** C2 (amended).  An [IAdd32] without pseudo-operation whose operands
    have the XMAD shape -- a left shift of a multiply of a bit field of
    [factor_a], added to a multiply of another bit field, with a shared
    resolved second factor and a shared resolved base -- is folded
    exactly when the shift amount is the literal 16 and the fields are
    the literals [(16, 16)] and [(0, 16)]: a new [IMul32 (factor_a,
    factor_b)] is emitted before the add and every use of the add is
    replaced by it.  With any other literal, or with a pseudo-operation
    on the add, the program is unchanged. *)
Theorem C2_xmad_multiply
    (p : Program) (block : BlockId) (inst : InstId)
    (lhs rhs : Value) (fl : FpControl) (ps : option InstId)
    (pre post : list InstId)
    (amount l_off l_width r_off r_width factor_a factor_b : Value) :
  arena p !! inst = Some (MkInst IAdd32 [lhs; rhs] fl ps) ->
  placed p block inst pre post ->
  xmad_shape (arena p) lhs rhs amount l_off l_width r_off r_width
             factor_a factor_b ->
  ConstantPropagation block inst p
  = Ok (tt, match ps with
            | Some _ => p
            | None =>
                if xmad_literals amount l_off l_width r_off r_width
                then xmad_folded p block inst pre post factor_a factor_b
                else p
            end).
Proof.
  intros Hi Hplaced
    (v_lmul & v_lbfe & v_rbfe & rhs_a & rhs_b & res_a & res_b
     & Hshl & Hlmul & Hrmul & Rb & Rb' & Hlbfe & Hrbfe & Ra & Ra').
  destruct (produced_by_resolved _ _ _ _ Hshl)
    as (i_shl & ? & ? & _ & Nshl & Ishl & _ & _ & Lshl).
  destruct (produced_by_resolved _ _ _ _ Hlmul)
    as (i_lmul & ? & ? & _ & Nlmul & Ilmul & _ & _ & Llmul).
  destruct (produced_by_resolved _ _ _ _ Hrmul)
    as (i_rmul & ? & ? & _ & Nrmul & Irmul & _ & _ & Lrmul).
  destruct (produced_by_resolved _ _ _ _ Hlbfe)
    as (i_lbfe & ? & ? & _ & Nlbfe & Ilbfe & _ & _ & Llbfe).
  destruct (produced_by_resolved _ _ _ _ Hrbfe)
    as (i_rbfe & ? & ? & _ & Nrbfe & Irbfe & _ & _ & Lrbfe).
  unfold ConstantPropagation. step. unfold FoldAdd. step.
  destruct ps; [reflexivity|].
  erewrite FoldCommutative_no_immediate by eassumption.
  cbn [negb]. steps. unfold FoldXmadMultiply, xmad_literals. go.
  destruct (decide (amount = ImmU32 16)) as [->|Hamount]; go;
    [|reflexivity].
  destruct (decide (l_off = ImmU32 16)) as [->|Hloff]; go;
    [|reflexivity].
  destruct (decide (l_width = ImmU32 16)) as [->|Hlw]; go;
    [|reflexivity].
  destruct (decide (r_off = ImmU32 0)) as [->|Hroff]; go;
    [|reflexivity].
  destruct (decide (r_width = ImmU32 16)) as [->|Hrw]; go;
    [|reflexivity].
  erewrite bind_IMul by eassumption. steps. reflexivity.
Qed.

(** C2 on the XMAD example without pseudo-operation. *)
Lemma C2_witness :
  ConstantPropagation 0%nat 7%nat (xmad_program None)
  = Ok (tt, xmad_folded (xmad_program None) 0%nat 7%nat
              [0; 1; 2; 3; 4; 5; 6]%nat [8; 9]%nat
              (Opaque 0%nat) (Opaque 1%nat)).
Proof.
  apply (C2_xmad_multiply (xmad_program None) 0%nat 7%nat
           (Opaque 6%nat) (Opaque 3%nat) no_flags None
           [0; 1; 2; 3; 4; 5; 6]%nat [8; 9]%nat
           (ImmU32 16) (ImmU32 16) (ImmU32 16) (ImmU32 0) (ImmU32 16)
           (Opaque 0%nat) (Opaque 1%nat)).
  - reflexivity.
  - split; [reflexivity|]. rewrite list_elem_of_In. cbn. intuition discriminate.
  - exists (Opaque 5%nat), (Opaque 4%nat), (Opaque 2%nat), (Opaque 0%nat),
      (Opaque 1%nat), (Opaque 0%nat), (Opaque 1%nat).
    repeat split;
      first [ reflexivity | eapply produced_by_intro; reflexivity ].
Defined.

(** After the fold the consumer of the add reads the new multiply. *)
Example xmad_consumer :
  exists p',
    ConstantPropagation 0%nat 7%nat (xmad_program None) = Ok (tt, p')
    /\ arena p' !! 10%nat = Some (inst_ IMul32 [Opaque 0%nat; Opaque 1%nat])
    /\ inst_args <$> arena p' !! 9%nat = Some [Opaque 10%nat]
    /\ post_order_blocks p' = [[0; 1; 2; 3; 4; 5; 6; 10; 7; 8; 9]%nat].
Proof. eexists. repeat split; reflexivity. Qed.

(** ** Instructions with a pseudo-operation *)

(** C4.  The claim, that no rule replaces the uses of an instruction
    with an associated pseudo-operation, fails on two of the rules it
    names.  The subtraction of two reads of the same constant buffer
    (instruction 4 of the constant-buffer example) carries a zero-flag
    pseudo-operation, and still every use of it -- the operand of the
    pseudo-operation among them -- is rewired to the constant 0; the
    logical and of two constants with a zero-flag pseudo-operation is
    replaced by its value in the same way.  Neither [FoldISub32]'s
    constant-buffer paths nor [FoldCommutative] test
    [HasAssociatedPseudoOperation], which [FoldWhenAllImmediates] and
    [FoldAdd] do test. *)
Theorem C4_pseudo_operation_replaced :
  (ConstantPropagation 0%nat 4%nat cbuf_program
   = Ok (tt, replace_uses 4%nat (ImmU32 0) cbuf_program)
   /\ arena (replace_uses 4%nat (ImmU32 0) cbuf_program) !! 5%nat
      = Some (inst_ GetZeroFromOp [ImmU32 0]))
  /\ (ConstantPropagation 0%nat 0%nat pseudo_logical_program
      = Ok (tt, replace_uses 0%nat (ImmU1 false) pseudo_logical_program)
      /\ arena (replace_uses 0%nat (ImmU1 false) pseudo_logical_program)
           !! 1%nat
         = Some (inst_ GetZeroFromOp [ImmU1 false]))
  /\ ~ pseudo_op_claim_as_stated.
Proof.
  split; [split; reflexivity|]. split; [split; reflexivity|]. intros claim.
  destruct (claim cbuf_program 0%nat 4%nat _
                  (replace_uses 4%nat (ImmU32 0) cbuf_program)
                  eq_refl (mk_is_Some _ _ eq_refl) eq_refl)
    as (_ & _ & Hother & _).
  specialize (Hother 5%nat ltac:(discriminate)).
  vm_compute in Hother. discriminate Hother.
Qed.

Lemma all_immediate_head h a vs :
  all_immediate h (a :: vs) = Ok true -> IsImmediate h a = Ok true.
Proof.
  cbn [all_immediate]. destruct (IsImmediate h a) as [[]| |]; cbn;
    congruence.
Qed.

Lemma evaluator_skips_pseudo {B} eval (k : bool -> M B) p inst ins all :
  arena p !! inst = Some ins ->
  is_Some (inst_pseudo ins) ->
  all_immediate (arena p) (inst_args ins) = Ok all ->
  bind (FoldWhenAllImmediates eval inst) k p = k false p.
Proof.
  intros Hi [q Hq] Hall. unfold FoldWhenAllImmediates. step.
  erewrite bind_AreAllArgsImmediates by eassumption.
  destruct all; cbn [negb]; steps; [rewrite Hq|]; reflexivity.
Qed.

(** The rules that do test the pseudo-operation.  For an instruction
    with an associated pseudo-operation, the rules that go through the
    all-immediates evaluator (the integer comparisons, the two bit-field
    extracts, and the both-constant fold of [ISub32]) and the integer
    adds replace nothing and rewrite nothing: the program is unchanged. *)
Lemma pseudo_operation_guarded_rules
    (p : Program) (block : BlockId) (inst : InstId) (ins : Inst)
    (all : bool) :
  arena p !! inst = Some ins ->
  is_Some (inst_pseudo ins) ->
  all_immediate (arena p) (inst_args ins) = Ok all ->
  gated (inst_opcode ins) = true
  \/ (inst_opcode ins = ISub32 /\ all = true
      /\ length (inst_args ins) = 2%nat) ->
  ConstantPropagation block inst p = Ok (tt, p).
Proof.
  intros Hi Hps Hall Hgate. unfold ConstantPropagation. step.
  destruct Hgate as [Hg|(Hop & -> & Hlen)].
  - destruct (inst_opcode ins) eqn:Hop; try discriminate Hg;
      try (erewrite evaluator_skips_pseudo by eassumption; reflexivity).
    + unfold FoldAdd. step. destruct Hps as [q ->]. reflexivity.
    + unfold FoldAdd. step. destruct Hps as [q ->]. reflexivity.
  - rewrite Hop. unfold FoldISub32.
    erewrite evaluator_skips_pseudo by eassumption.
    destruct ins as [o [|a0 [|a1 [|]]] f q]; try discriminate Hlen.
    cbn [inst_args] in Hall. pose proof (all_immediate_head _ _ _ Hall).
    steps. reflexivity.
Qed.

(** The unsigned compare of two constants that carries a
    pseudo-operation is left alone. *)
Example compare_with_pseudo_operation :
  ConstantPropagation 0%nat 8%nat constants_program
  = Ok (tt, constants_program).
Proof.
  exact (pseudo_operation_guarded_rules constants_program 0%nat 8%nat _ true
           eq_refl (mk_is_Some _ _ eq_refl) eq_refl (or_introl eq_refl)).
Qed.

(** ** Extraction from a chain of inserts and a construct *)

Lemma bounded_distinct_length (l : list nat) (n : nat) :
  NoDup l -> (forall j, j ∈ l -> (j < n)%nat) -> (length l <= n)%nat.
Proof.
  intros Hnd Hb. rewrite <- (length_seq n 0).
  apply submseteq_length, NoDup_submseteq; [assumption|].
  intros j Hj. apply elem_of_seq. specialize (Hb j Hj). lia.
Qed.

Lemma produced_by_same_inst h v v' opc opc' args args' :
  produced_by h v opc args ->
  produced_by h v' opc' args' ->
  InstRecursive h v = InstRecursive h v' ->
  opc = opc' /\ args = args'.
Proof.
  intros (i & fl & ps & Hr & Hl) (i' & fl' & ps' & Hr' & Hl') Heq.
  rewrite Hr, Hr' in Heq. injection Heq as ->.
  rewrite Hl in Hl'. injection Hl' as -> -> _ _. split; reflexivity.
Qed.

Section ChaseFacts.
Variables (h : list Inst) (insert construct : Opcode) (k : Z).
Hypothesis Hdistinct : insert <> construct.

(** The chase computes what the relation says, given fuel for its
    depth. *)
Lemma Chase_sound d v r :
  Chase h insert construct k d v r ->
  forall n, (d <= n)%nat ->
  FoldCompositeExtractImpl n h v insert construct k = Ok r.
Proof.
  induction 1 as [v args a Hp Ha|v opc args Hp Hc Hi|v base val idx Hp Hidx
                 |v base val idx Hp Hidx|v base val idx k' Hp Hidx Hk Hb
                 |d v base val idx k' r Hp Hidx Hk Hb Hch IH];
    intros [|n] Hn; try lia;
    destruct Hp as (i & fl & ps & Hr & Hl);
    cbn [FoldCompositeExtractImpl]; rewrite Hr; cbn [rbind];
    rewrite Hl; cbn [of_option rbind inst_opcode inst_args].
  - decide_tests. rewrite Ha. reflexivity.
  - decide_tests. reflexivity.
  - decide_tests. change ([base; val; idx] !! 2%nat) with (Some idx).
    cbn [of_option rbind]. rewrite Hidx. reflexivity.
  - decide_tests. change ([base; val; idx] !! 2%nat) with (Some idx).
    cbn [of_option rbind]. rewrite (U32_immediate _ _ _ Hidx).
    cbn [rbind negb]. rewrite Hidx. cbn [rbind]. rewrite Z.eqb_refl.
    reflexivity.
  - decide_tests. change ([base; val; idx] !! 2%nat) with (Some idx).
    cbn [of_option rbind]. rewrite (U32_immediate _ _ _ Hidx).
    cbn [rbind negb]. rewrite Hidx. cbn [rbind].
    rewrite (proj2 (Z.eqb_neq k k')) by congruence. cbn [negb].
    change ([base; val; idx] !! 0%nat) with (Some base).
    cbn [of_option rbind]. rewrite Hb. reflexivity.
  - decide_tests. change ([base; val; idx] !! 2%nat) with (Some idx).
    cbn [of_option rbind]. rewrite (U32_immediate _ _ _ Hidx).
    cbn [rbind negb]. rewrite Hidx. cbn [rbind].
    rewrite (proj2 (Z.eqb_neq k k')) by congruence. cbn [negb].
    change ([base; val; idx] !! 0%nat) with (Some base).
    cbn [of_option rbind]. rewrite Hb. cbn [rbind]. apply IH. lia.
Qed.

(** From a given producer the chase has one length. *)
Lemma Chase_depth_unique d v r :
  Chase h insert construct k d v r ->
  forall d' v' r',
    Chase h insert construct k d' v' r' ->
    InstRecursive h v = InstRecursive h v' ->
    d = d'.
Proof.
  induction 1 as [v args a Hp Ha|v opc args Hp Hc Hi|v base val idx Hp Hidx
                 |v base val idx Hp Hidx|v base val idx k1 Hp Hidx Hk Hb
                 |d v base val idx k1 r Hp Hidx Hk Hb Hch IH];
    intros d' v' r' H' Hsame;
    destruct H' as [v' args' a' Hp' Ha'|v' opc' args' Hp' Hc' Hi'
                   |v' base' val' idx' Hp' Hidx'|v' base' val' idx' Hp' Hidx'
                   |v' base' val' idx' k2 Hp' Hidx' Hk' Hb'
                   |d' v' base' val' idx' k2 r' Hp' Hidx' Hk' Hb' Hch'];
    try reflexivity;
    destruct (produced_by_same_inst _ _ _ _ _ _ _ Hp Hp' Hsame) as [Ho Hargs];
    try congruence;
    try (injection Hargs as <- <- <-);
    try (pose proof (U32_immediate _ _ _ Hidx'));
    try (pose proof (U32_immediate _ _ _ Hidx));
    try congruence.
  f_equal. eapply IH; [eassumption|reflexivity].
Qed.

(** The producers met along a chase are pairwise distinct. *)
Lemma Chase_path d v r :
  Chase h insert construct k d v r ->
  exists l : list InstId,
    length l = d /\ NoDup l
    /\ forall j, j ∈ l ->
         (j < length h)%nat
         /\ exists d' v', (d' <= d)%nat /\ InstRecursive h v' = Ok j
                          /\ Chase h insert construct k d' v' r.
Proof.
  intros Hchase. pose proof Hchase as Hv.
  induction Hchase
    as [v args a Hp Ha|v opc args Hp Hc Hi|v base val idx Hp Hidx
       |v base val idx Hp Hidx|v base val idx k1 Hp Hidx Hk Hb
       |d v base val idx k1 r Hp Hidx Hk Hb Hch IH];
    pose proof Hp as (i & fl & ps & Hr & Hl);
    pose proof (lookup_lt_Some _ _ _ Hl) as Hlt.
  1-5: exists [i]; split; [reflexivity|]; split; [apply NoDup_singleton|];
       intros j ->%list_elem_of_singleton; split; [assumption|];
       exists 1%nat, v; split; [lia|]; split; assumption.
  destruct (IH Hch) as (l & Hlen & Hnd & Hmem).
  exists (i :: l). split; [cbn; congruence|]. split.
  - apply NoDup_cons_2; [|assumption].
    intros Hin. destruct (Hmem i Hin) as (_ & d' & v' & Hle & Hr' & Hc').
    assert (S d = d')
      by (eapply Chase_depth_unique;
          [exact Hv|exact Hc'|rewrite Hr, Hr'; reflexivity]).
    lia.
  - intros j [->|Hin]%elem_of_cons.
    + split; [assumption|]. exists (S d), v.
      split; [lia|]. split; assumption.
    + destruct (Hmem j Hin) as (Hj & d' & v' & Hle & Hr' & Hc').
      split; [assumption|]. exists d', v'.
      split; [lia|]. split; assumption.
Qed.

Lemma Chase_bound d v r :
  Chase h insert construct k d v r -> (d <= length h)%nat.
Proof.
  intros (l & <- & Hnd & Hmem)%Chase_path.
  apply bounded_distinct_length; [assumption|].
  intros j Hj. apply Hmem, Hj.
Qed.

Lemma Chase_not_immediate d v r :
  Chase h insert construct k d v r -> IsImmediate h v = Ok false.
Proof.
  destruct 1 as [? ? ? Hp|? ? ? Hp|? ? ? ? Hp|? ? ? ? Hp|? ? ? ? ? Hp
                |? ? ? ? ? ? ? Hp];
    destruct Hp as (i & ? & ? & Hr & _);
    eapply InstRecursive_not_immediate, Hr.
Qed.
End ChaseFacts.

(** C8.  A composite extract (two to four lanes, float16 or float32) of a
    non-constant composite at a constant lane chases the producers of the
    composite: an insert at the same lane yields the inserted value,
    whatever the base is; an insert at another constant lane sends the
    chase into its base; the matching construct yields its argument at
    the lane.  The uses of the extract are replaced by the value found.
    When the chase meets a constant composite, any other opcode, or an
    insert whose lane is not constant, the program is unchanged. *)
Theorem C8_composite_extract_chase
    (p : Program) (block : BlockId) (inst : InstId)
    (extract construct insert : Opcode)
    (composite index : Value) (fl : FpControl) (ps : option InstId)
    (lane : Z) (depth : nat) (found : option Value) :
  (extract, construct, insert) ∈ composite_families ->
  arena p !! inst = Some (MkInst extract [composite; index] fl ps) ->
  U32 (arena p) index = Ok lane ->
  Chase (arena p) insert construct lane depth composite found ->
  ConstantPropagation block inst p
  = Ok (tt, match found with
            | Some v => replace_uses inst v p
            | None => p
            end).
Proof.
  intros Hfam Hi Hlane Hchase.
  apply list_elem_of_In in Hfam. cbn [composite_families In] in Hfam.
  assert (insert <> construct) as Hdistinct.
  { clear -Hfam.
    repeat (destruct Hfam as [Hfam|Hfam];
            [injection Hfam as <- <- <-; discriminate|]).
    destruct Hfam. }
  pose proof (Chase_not_immediate _ _ _ _ _ _ _ Hchase) as Hni.
  pose proof (U32_immediate _ _ _ Hlane) as Himm.
  assert (FoldCompositeExtractImpl (length (arena p)) (arena p) composite
            insert construct lane = Ok found) as Himpl.
  { eapply Chase_sound; try eassumption.
    eapply Chase_bound; eassumption. }
  assert (FoldCompositeExtract inst construct insert p
          = Ok (tt, match found with
                    | Some v => replace_uses inst v p
                    | None => p
                    end)) as Hfold.
  { unfold FoldCompositeExtract. steps. destruct found; reflexivity. }
  unfold ConstantPropagation. step.
  repeat (destruct Hfam as [Hfam|Hfam];
          [injection Hfam as <- <- <-; exact Hfold|]).
  destruct Hfam.
Qed.

(** C8 on lane 0 of a vector whose lane 1 was overwritten: the chase
    passes the insert and ends at the construct. *)
Lemma C8_witness :
  ConstantPropagation 0%nat 5%nat composite_program
  = Ok (tt, replace_uses 5%nat (Opaque 0%nat) composite_program).
Proof.
  apply (C8_composite_extract_chase composite_program 0%nat 5%nat
           CompositeExtractF32x2 CompositeConstructF32x2 CompositeInsertF32x2
           (Opaque 4%nat) (ImmU32 0) no_flags None 0 2%nat
           (Some (Opaque 0%nat))).
  - apply list_elem_of_In. left. reflexivity.
  - reflexivity.
  - reflexivity.
  - eapply (Chase_into_base _ _ _ _ _ _ (Opaque 3%nat) (Opaque 2%nat)
              (ImmU32 1) 1).
    + eapply produced_by_intro; reflexivity.
    + reflexivity.
    + discriminate.
    + reflexivity.
    + eapply (Chase_construct _ _ _ _ _ [Opaque 0%nat; Opaque 1%nat]).
      * eapply produced_by_intro; reflexivity.
      * reflexivity.
Defined.

(** Reading back the lane that was just inserted gives the inserted
    value, whatever the base composite holds. *)
Example composite_extract_of_insert :
  ConstantPropagation 0%nat 6%nat composite_program
  = Ok (tt, replace_uses 6%nat (Opaque 2%nat) composite_program).
Proof. reflexivity. Qed.

(** ** The whole pass *)

(** One run over the XMAD example: the add is folded into a multiply
    emitted before it, and the negation that consumed the add now reads
    the multiply. *)
Example pass_over_xmad_program :
  exists p',
    ConstantPropagationPass (xmad_program None) = Ok (tt, p')
    /\ post_order_blocks p' = [[0; 1; 2; 3; 4; 5; 6; 10; 7; 8; 9]%nat]
    /\ inst_args <$> arena p' !! 9%nat = Some [Opaque 10%nat].
Proof. eexists. repeat split; reflexivity. Qed.

(** One run over the constants example stops at the malformed bit-field
    extract. *)
Example pass_over_constants_program :
  ConstantPropagationPass constants_program = Throw LogicError.
Proof. reflexivity. Qed.
